(** * The remote CAN server: per-client session of [can.interfaces.remote.server]

    A shallow embedding of [ClientBusConnection] (setup, handle, finish, the
    client-to-bus loop [_receive_from_client] and the bus-to-client loop
    [_send_to_client]) over an explicit world: the session's own fields, the
    server's client list, the objects owned by the bus adapter, and the
    scripted answers of everything outside the program (the client's decoded
    event stream, the bus, the socket).  Every call that leaves the session
    is appended to a trace, so that statements about how often and in which
    order the adapter and the socket are used can be read off the result. *)

From Stdlib Require Import QArith.
From stdpp Require Import gmap strings list.

Open Scope Z_scope.

(** ** Data model *)

(** [can.Message]: the fields the server looks at. *)
Record Message := mkMessage {
  arbitration_id : Z;
  data : list Byte.byte
}.

(** What [RemoteServerError] is raised with. *)
Inductive server_error :=
| HandshakeError
| ProtocolVersionMismatch (got expected : Z).

(** The exceptions that occur in the module. *)
Inductive exn :=
| RemoteServerError (msg : server_error)
| KeyError (key : Z)
| ValueError
| CanError (desc : string)
| BusOpenException (desc : string).

(** The protocol events of [can.interfaces.remote.events]. *)
Inductive event :=
| BusRequest (version bitrate : Z)
| FilterConfig (can_filters : list (Z * Z))
| BusResponse (channel_info : string)
| CanMessage (msg : Message)
| PeriodicMessageStart (msg : Message) (period : Q) (duration : option Q)
| PeriodicMessageStop (arb_id : Z)
| ConnectionClosed
| RemoteException (e : exn)
| TransmitFail.

(** Values of the keyword configuration handed to [can.interface.Bus]. *)
Inductive cfg_value :=
| CfgInt (n : Z)
| CfgStr (s : string)
| CfgFilters (fs : list (Z * Z)).

(** A periodic send task, an object owned by the bus adapter. *)
Record task := mkTask {
  task_msg : Message;
  task_period : Q;
  task_duration : option Q;
  task_stopped : bool
}.

(** What [bus.recv(timeout)] can do. *)
Inductive recv_result :=
| RecvMsg (msg : Message)
| RecvNone
| RecvError (desc : string).

(** Calls that leave the session, in the order they are made. *)
Inductive op :=
| OBusOpen (cfg : gmap string cfg_value)
| OBusSend (msg : Message)
| OBusRecv (timeout : Q) (r : recv_result)
| OBusSendPeriodic (msg : Message) (period : Q) (duration : option Q)
| OTaskModify (h : nat) (msg : Message)
| OTaskStop (h : nat)
| OBusShutdown
| OSelect (ready : bool)
| OSendall (evs : list event)
| OEnqueue (ev : event).

(** The world one session runs in.  [clients] is [server.clients]; [self]
    names this handler object in it.  [inbox] holds the events the
    connection will decode from the client's bytes, in order;
    [bus_open], [send_script], [recv_script] and [select_script] are the
    answers of the bus adapter and of [select.select].  [tasks] are the task
    objects the adapter has created, addressed by position. *)
Record world := mkWorld {
  clients : list nat;
  self : nat;
  config : gmap string cfg_value;
  bus : option string;
  stop_event : bool;
  send_thread_started : bool;
  send_tasks : gmap Z nat;
  tasks : list task;
  outbuf : list event;
  inbox : list event;
  bus_open : gmap string cfg_value -> string + exn;
  send_script : list (option string);
  recv_script : list recv_result;
  select_script : list bool;
  trace : list op
}.

Definition set_clients (f : list nat -> list nat) (w : world) : world :=
  mkWorld (f (clients w)) (self w) (config w) (bus w) (stop_event w)
    (send_thread_started w) (send_tasks w) (tasks w) (outbuf w) (inbox w)
    (bus_open w) (send_script w) (recv_script w) (select_script w) (trace w).

Definition set_config (f : gmap string cfg_value -> gmap string cfg_value)
    (w : world) : world :=
  mkWorld (clients w) (self w) (f (config w)) (bus w) (stop_event w)
    (send_thread_started w) (send_tasks w) (tasks w) (outbuf w) (inbox w)
    (bus_open w) (send_script w) (recv_script w) (select_script w) (trace w).

Definition set_bus (b : option string) (w : world) : world :=
  mkWorld (clients w) (self w) (config w) b (stop_event w)
    (send_thread_started w) (send_tasks w) (tasks w) (outbuf w) (inbox w)
    (bus_open w) (send_script w) (recv_script w) (select_script w) (trace w).

Definition set_stop_event (b : bool) (w : world) : world :=
  mkWorld (clients w) (self w) (config w) (bus w) b
    (send_thread_started w) (send_tasks w) (tasks w) (outbuf w) (inbox w)
    (bus_open w) (send_script w) (recv_script w) (select_script w) (trace w).

Definition set_send_thread_started (b : bool) (w : world) : world :=
  mkWorld (clients w) (self w) (config w) (bus w) (stop_event w)
    b (send_tasks w) (tasks w) (outbuf w) (inbox w)
    (bus_open w) (send_script w) (recv_script w) (select_script w) (trace w).

Definition set_send_tasks (f : gmap Z nat -> gmap Z nat) (w : world) : world :=
  mkWorld (clients w) (self w) (config w) (bus w) (stop_event w)
    (send_thread_started w) (f (send_tasks w)) (tasks w) (outbuf w) (inbox w)
    (bus_open w) (send_script w) (recv_script w) (select_script w) (trace w).

Definition set_tasks (f : list task -> list task) (w : world) : world :=
  mkWorld (clients w) (self w) (config w) (bus w) (stop_event w)
    (send_thread_started w) (send_tasks w) (f (tasks w)) (outbuf w) (inbox w)
    (bus_open w) (send_script w) (recv_script w) (select_script w) (trace w).

Definition set_outbuf (f : list event -> list event) (w : world) : world :=
  mkWorld (clients w) (self w) (config w) (bus w) (stop_event w)
    (send_thread_started w) (send_tasks w) (tasks w) (f (outbuf w)) (inbox w)
    (bus_open w) (send_script w) (recv_script w) (select_script w) (trace w).

Definition set_inbox (l : list event) (w : world) : world :=
  mkWorld (clients w) (self w) (config w) (bus w) (stop_event w)
    (send_thread_started w) (send_tasks w) (tasks w) (outbuf w) l
    (bus_open w) (send_script w) (recv_script w) (select_script w) (trace w).

Definition set_send_script (l : list (option string)) (w : world) : world :=
  mkWorld (clients w) (self w) (config w) (bus w) (stop_event w)
    (send_thread_started w) (send_tasks w) (tasks w) (outbuf w) (inbox w)
    (bus_open w) l (recv_script w) (select_script w) (trace w).

Definition set_recv_script (l : list recv_result) (w : world) : world :=
  mkWorld (clients w) (self w) (config w) (bus w) (stop_event w)
    (send_thread_started w) (send_tasks w) (tasks w) (outbuf w) (inbox w)
    (bus_open w) (send_script w) l (select_script w) (trace w).

Definition set_select_script (l : list bool) (w : world) : world :=
  mkWorld (clients w) (self w) (config w) (bus w) (stop_event w)
    (send_thread_started w) (send_tasks w) (tasks w) (outbuf w) (inbox w)
    (bus_open w) (send_script w) (recv_script w) l (trace w).

(** Record one outgoing call. *)
Definition log (o : op) (w : world) : world :=
  mkWorld (clients w) (self w) (config w) (bus w) (stop_event w)
    (send_thread_started w) (send_tasks w) (tasks w) (outbuf w) (inbox w)
    (bus_open w) (send_script w) (recv_script w) (select_script w)
    (trace w ++ [o]).

(** ** Computations: state, exceptions, and blocking reads *)

Inductive result (A : Type) :=
| Ret (a : A)
| Raise (e : exn)
| Blocked.
Arguments Ret {A} a.
Arguments Raise {A} e.
Arguments Blocked {A}.

Definition M (A : Type) : Type := world -> result A * world.

#[export] Instance M_ret : MRet M := fun A a w => (Ret a, w).

#[export] Instance M_bind : MBind M := fun A B f m w =>
  match m w with
  | (Ret a, w') => f a w'
  | (Raise e, w') => (Raise e, w')
  | (Blocked, w') => (Blocked, w')
  end.

Definition raise {A} (e : exn) : M A := fun w => (Raise e, w).
Definition block {A} : M A := fun w => (Blocked, w).
Definition gets {A} (f : world -> A) : M A := fun w => (Ret (f w), w).
Definition modify (f : world -> world) : M unit := fun w => (Ret tt, f w).

(** ** The connection object (stream framer) *)

(** Modelled from the spec: [can.interfaces.remote.connection.Connection] is
    not part of the sources at hand.  [queueEvent] encodes an event and
    appends it to the outbound accumulator; the accumulator is kept here as
    the list of events whose bytes it holds. *)
Definition conn_send_event (ev : event) : M unit :=
  modify (fun w => log (OEnqueue ev) (set_outbuf (fun b => b ++ [ev]) w)).

Definition has_data (buf : list event) : bool :=
  match buf with [] => false | _ :: _ => true end.

(** Modelled from the spec: [hasPendingOutput] of the stream framer. *)
Definition conn_data_ready (w : world) : bool := has_data (outbuf w).

(** Modelled from the spec: [drainOutput] returns and clears the outbound
    buffer. *)
Definition conn_next_data : M (list event) :=
  fun w => (Ret (outbuf w), set_outbuf (fun _ => []) w).

(** [self.request.sendall(...)]. *)
Definition request_sendall (evs : list event) : M unit :=
  modify (log (OSendall evs)).

(** [_next_event]: block until the connection has decoded the next event.
    With nothing more to come from the client the call never returns.  The
    inbox holds what the reads deliver; a read that fails instead (a reset
    connection, bytes that do not decode) is not among the runs described
    here. *)
Definition _next_event : M event := fun w =>
  match inbox w with
  | [] => (Blocked, w)
  | ev :: rest => (Ret ev, set_inbox rest w)
  end.

(** ** The bus adapter *)

(** Modelled from the spec: [send(handle, frame) -> Error?]; the answer is
    the next entry of the script, and a script that has run out accepts the
    frame. *)
Definition bus_send (msg : Message) : M unit := fun w =>
  let w1 := log (OBusSend msg) w in
  match send_script w with
  | [] => (Ret tt, w1)
  | None :: rest => (Ret tt, set_send_script rest w1)
  | Some desc :: rest => (Raise (CanError desc), set_send_script rest w1)
  end.

(** Modelled from the spec: [startPeriodic(handle, frame, period, duration)
    -> taskHandle] creates a running task and hands it back. *)
Definition bus_send_periodic (msg : Message) (period : Q)
    (duration : option Q) : M nat := fun w =>
  let h := length (tasks w) in
  (Ret h, log (OBusSendPeriodic msg period duration)
            (set_tasks (fun ts => ts ++ [mkTask msg period duration false]) w)).

Definition task_set_msg (msg : Message) (t : task) : task :=
  mkTask msg (task_period t) (task_duration t) (task_stopped t).

Definition task_set_stopped (t : task) : task :=
  mkTask (task_msg t) (task_period t) (task_duration t) true.

(** Modelled from the spec: [modifyPeriodic(taskHandle, frame)] replaces the
    frame the task sends. *)
Definition task_modify_data (h : nat) (msg : Message) : M unit :=
  modify (fun w => log (OTaskModify h msg)
                     (set_tasks (alter (task_set_msg msg) h) w)).

(** Modelled from the spec: [stopPeriodic(taskHandle)]. *)
Definition task_stop (h : nat) : M unit :=
  modify (fun w => log (OTaskStop h)
                     (set_tasks (alter task_set_stopped h) w)).

(** ** Client to bus *)

(** [send_msg]: a [can.CanError] from the adapter is answered with a
    [TransmitFail] event for the client. *)
Definition send_msg (msg : Message) : M unit := fun w =>
  match bus_send msg w with
  | (Raise (CanError _), w') => conn_send_event TransmitFail w'
  | r => r
  end.

Inductive loop_ctl := Continue | Break.

(** The body of the loop of [_receive_from_client] below the read: the
    [isinstance] chain. *)
Definition receive_dispatch (ev : event) : M loop_ctl :=
  match ev with
  | CanMessage msg => send_msg msg ;; mret Continue
  | ConnectionClosed => mret Break
  | PeriodicMessageStart msg period duration =>
      reg ← gets send_tasks;
      match reg !! arbitration_id msg with
      | Some h => task_modify_data h msg ;; mret Continue
      | None =>
          h ← bus_send_periodic msg period duration;
          modify (set_send_tasks <[arbitration_id msg := h]>) ;;
          mret Continue
      end
  | PeriodicMessageStop arb_id =>
      reg ← gets send_tasks;
      match reg !! arb_id with
      | Some h => task_stop h ;; mret Continue
      | None => raise (KeyError arb_id)
      end
  | _ => mret Continue
  end.

(** One pass through the [while] of [_receive_from_client]; [None] stands
    for leaving the loop. *)
Definition receive_iteration : M (option unit) :=
  stopped ← gets stop_event;
  if (stopped : bool) then mret (@None unit)
  else
    ev ← _next_event;
    ctl ← receive_dispatch ev;
    match ctl with
    | Continue => mret (Some tt)
    | Break => mret (@None unit)
    end.

Fixpoint receive_loop (fuel : nat) : M unit :=
  match fuel with
  | O => block
  | S fuel' =>
      r ← receive_iteration;
      match r with
      | None => mret tt
      | Some _ => receive_loop fuel'
      end
  end.

(** [_receive_from_client].  Every pass that goes on takes one event from
    the inbox, so one pass more than there are events is always enough: the
    last one finds the inbox empty and blocks in the read. *)
Definition _receive_from_client : M unit := fun w =>
  receive_loop (S (length (inbox w))) w.

(** ** Session set-up, handshake and teardown *)

(** [setup]: fresh per-session fields (no bus, a new connection object with
    nothing queued, the stop event unset, the send thread not started, an
    empty task registry), and the session registers itself in
    [server.clients].  [config] starts as the copy of the server's
    configuration the world was given. *)
Definition setup : M unit :=
  modify (fun w =>
    set_clients (fun l => l ++ [self w])
      (set_send_tasks (fun _ => ∅)
        (set_send_thread_started false
          (set_stop_event false
            (set_outbuf (fun _ => []) (set_bus None w)))))).

(** [dict.setdefault]. *)
Definition setdefault (k : string) (v : cfg_value)
    (d : gmap string cfg_value) : gmap string cfg_value :=
  match d !! k with
  | Some _ => d
  | None => <[k := v]> d
  end.

(** [self.request.sendall(self.conn.next_data())]. *)
Definition flush_to_client : M unit :=
  d ← conn_next_data; request_sendall d.

(** The [try]/[except]/[else]/[finally] of [handle], around the call of
    [can.interface.Bus] with the configuration as keyword arguments. *)
Definition open_bus : M unit :=
  cfg ← gets config;
  opener ← gets bus_open;
  me ← gets self;
  modify (log (OBusOpen cfg)) ;;
  match opener cfg with
  | inr e =>
      conn_send_event (RemoteException e) ;;
      flush_to_client ;;
      raise e
  | inl info =>
      modify (set_bus (Some info)) ;;
      conn_send_event (BusResponse info) ;;
      modify (set_clients (fun l => l ++ [me])) ;;
      flush_to_client
  end.

Section Handshake.

(** [can.interfaces.remote.PROTOCOL_VERSION], defined outside the module. *)
Variable PROTOCOL_VERSION : Z.

(** [handle]. *)
Definition handle : M unit :=
  bus_event ← _next_event;
  match bus_event with
  | BusRequest version bitrate =>
      if decide (version ≠ PROTOCOL_VERSION) then
        raise (RemoteServerError
                 (ProtocolVersionMismatch version PROTOCOL_VERSION))
      else
        modify (set_config (setdefault "bitrate" (CfgInt bitrate))) ;;
        filter_event ← _next_event;
        match filter_event with
        | FilterConfig can_filters =>
            modify (set_config <["can_filters" := CfgFilters can_filters]>) ;;
            open_bus ;;
            modify (set_send_thread_started true) ;;
            _receive_from_client
        | _ => raise (RemoteServerError HandshakeError)
        end
  | _ => raise (RemoteServerError HandshakeError)
  end.

End Handshake.

(** [list.remove]: drop the first occurrence, or fail when there is none. *)
Fixpoint remove_first (x : nat) (l : list nat) : option (list nat) :=
  match l with
  | [] => None
  | y :: l' =>
      if decide (y = x) then Some l'
      else match remove_first x l' with
           | Some r => Some (y :: r)
           | None => None
           end
  end.

(** [finish].  Joining the send thread changes nothing the session owns.
    The log line that comes first asks the socket for the peer's name; it is
    taken to succeed, as it does on a connection that is still up. *)
Definition finish : M unit := fun w =>
  match remove_first (self w) (clients w) with
  | None => (Raise ValueError, w)
  | Some l => (Ret tt, set_stop_event true (set_clients (fun _ => l) w))
  end.

(** How Python's [socketserver.BaseRequestHandler.__init__] drives a
    handler: [setup()], then [handle()] with [finish()] in its [finally].
    A [handle] that never returns never reaches [finish]. *)
Definition BaseRequestHandler_init (PROTOCOL_VERSION : Z) : M unit := fun w =>
  match setup w with
  | (Ret _, w1) =>
      match handle PROTOCOL_VERSION w1 with
      | (Blocked, w2) => (Blocked, w2)
      | (r, w2) =>
          match finish w2 with
          | (Ret _, w3) => (r, w3)
          | other => other
          end
      end
  | other => other
  end.

(** ** Bus to client *)

(** Modelled from the spec: [recv(handle, timeout) -> frame | none | Error];
    the answer is the next entry of the script, and a script that has run
    out means a quiet bus. *)
Definition bus_recv (timeout : Q) : M (option Message) := fun w =>
  match recv_script w with
  | [] => (Ret None, log (OBusRecv timeout RecvNone) w)
  | r :: rest =>
      let w1 := log (OBusRecv timeout r) (set_recv_script rest w) in
      match r with
      | RecvMsg msg => (Ret (Some msg), w1)
      | RecvNone => (Ret None, w1)
      | RecvError desc => (Raise (CanError desc), w1)
      end
  end.

(** [_next_event_from_bus]. *)
Definition _next_event_from_bus (timeout : Q) : M (option event) := fun w =>
  match bus_recv timeout w with
  | (Raise (CanError desc), w') => (Ret (Some (RemoteException (CanError desc))), w')
  | (Ret None, w') => (Ret None, w')
  | (Ret (Some msg), w') => (Ret (Some (CanMessage msg)), w')
  | (Raise e, w') => (Raise e, w')
  | (Blocked, w') => (Blocked, w')
  end.

(** [select.select([], [self.request], [], 2)]: is the socket writable?  A
    script that has run out means the wait timed out. *)
Definition select_writable : M bool := fun w =>
  match select_script w with
  | [] => (Ret false, log (OSelect false) w)
  | b :: rest => (Ret b, log (OSelect b) (set_select_script rest w))
  end.

Definition is_remote_exception (ev : event) : bool :=
  match ev with
  | RemoteException _ => true
  | _ => false
  end.

(** The inner [while event is not None] of [_send_to_client].  Each pass
    that goes on polls the bus once; [fuel] bounds the passes. *)
Fixpoint drain_loop (fuel : nat) (ev : option event) : M unit :=
  match ev with
  | None => mret tt
  | Some e =>
      conn_send_event e ;;
      if is_remote_exception e then modify (set_stop_event true)
      else
        match fuel with
        | O => block
        | S fuel' =>
            ev' ← _next_event_from_bus 0%Q;
            drain_loop fuel' ev'
        end
  end.

(** One pass through the outer [while] of [_send_to_client].  A poll takes
    an entry from the script whenever there is one, so one pass of the inner
    loop more than there are entries is always enough. *)
Definition send_iteration : M unit :=
  ev ← _next_event_from_bus (1#2)%Q;
  client_ready ← select_writable;
  fuel ← gets (fun w => S (length (recv_script w)));
  drain_loop fuel ev ;;
  pending ← gets conn_data_ready;
  if (pending : bool) && (client_ready : bool) then flush_to_client
  else mret tt.

(** [self.bus.shutdown()]. *)
Definition bus_shutdown : M unit := modify (log OBusShutdown).

(** [_send_to_client]: the loop runs for as long as [stop_event] is unset,
    which may be forever; [None] is "not done within [fuel] passes". *)
Fixpoint _send_to_client (fuel : nat) (w : world)
    : option (result unit * world) :=
  match fuel with
  | O => None
  | S fuel' =>
      if stop_event w then Some (bus_shutdown w)
      else
        match send_iteration w with
        | (Ret _, w') => _send_to_client fuel' w'
        | other => Some other
        end
  end.

(** ** Reading the trace *)

(** The calls of a trace that go to the bus adapter or to one of its
    tasks. *)
Definition is_adapter_op (o : op) : bool :=
  match o with
  | OBusOpen _ | OBusSend _ | OBusRecv _ _ | OBusSendPeriodic _ _ _
  | OTaskModify _ _ | OTaskStop _ | OBusShutdown => true
  | OSelect _ | OSendall _ | OEnqueue _ => false
  end.

Definition adapter_calls (tr : list op) : list op :=
  List.filter is_adapter_op tr.

Definition is_poll (o : op) : bool :=
  match o with
  | OBusRecv _ _ => true
  | _ => false
  end.

Definition is_exception_enqueue (o : op) : bool :=
  match o with
  | OEnqueue (RemoteException _) => true
  | _ => false
  end.

(** The events a trace has written to the client's socket. *)
Definition delivered (tr : list op) : list event :=
  flat_map (fun o => match o with OSendall evs => evs | _ => [] end) tr.

(** The answer of the most recent writability check. *)
Fixpoint last_select (tr : list op) : option bool :=
  match tr with
  | [] => None
  | o :: tr' =>
      match last_select tr' with
      | Some b => Some b
      | None => match o with OSelect b => Some b | _ => None end
      end
  end.

(** The events a trace has put on the outbound buffer. *)
Definition enqueued (tr : list op) : list event :=
  flat_map (fun o => match o with OEnqueue ev => [ev] | _ => [] end) tr.


(** What the loop does while the bus is healthy: no failing poll, no
    exception for the client, no shutdown. *)
Definition calm (o : op) : bool :=
  match o with
  | OBusRecv _ (RecvError _) | OEnqueue (RemoteException _) | OBusShutdown => false
  | _ => true
  end.

(** What the inner loop does while the bus is healthy: polls without a
    wait, and frames put on the outbound buffer. *)
Definition drain_op (o : op) : bool :=
  match o with
  | OBusRecv {| Qnum := 0; Qden := 1 |} (RecvMsg _ | RecvNone) => true
  | OEnqueue (CanMessage _) => true
  | _ => false
  end.


Definition not_error (r : recv_result) : bool :=
  match r with
  | RecvError _ => false
  | _ => true
  end.

(** Events the relay loop has no branch for. *)
Definition unhandled (ev : event) : bool :=
  match ev with
  | CanMessage _ | ConnectionClosed
  | PeriodicMessageStart _ _ _ | PeriodicMessageStop _ => false
  | _ => true
  end.

(** The registry and the adapter's task objects agree: every task is
    registered under the arbitration ID of the frame it sends, and every
    registered handle is such a task. *)
Definition registry_ok (w : world) : Prop :=
  (forall h t, tasks w !! h = Some t ->
     send_tasks w !! arbitration_id (task_msg t) = Some h) /\
  (forall x h, send_tasks w !! x = Some h ->
     exists t, tasks w !! h = Some t /\ arbitration_id (task_msg t) = x).

(** States the client-to-bus loop passes through, one pass at a time. *)
Inductive relay_steps : world -> world -> Prop :=
| relay_here w : relay_steps w w
| relay_next w r w1 w2 :
    receive_iteration w = (r, w1) -> relay_steps w1 w2 -> relay_steps w w2.

(** A session that has just been accepted. *)
Definition fresh_world (cl : list nat) (me : nat)
    (cfg : gmap string cfg_value) (inb : list event)
    (opener : gmap string cfg_value -> string + exn)
    (sends : list (option string)) (recvs : list recv_result)
    (sels : list bool) : world :=
  mkWorld cl me cfg None false false ∅ [] [] inb opener sends recvs sels [].

(** How many times the session is in [server.clients]. *)
Definition registrations (w : world) : nat :=
  count_occ Nat.eq_dec (clients w) (self w).

(** The event [_next_event_from_bus] makes of an answer of the bus. *)
Definition event_of_recv (r : recv_result) : option event :=
  match r with
  | RecvMsg m => Some (CanMessage m)
  | RecvNone => None
  | RecvError d => Some (RemoteException (CanError d))
  end.

(** A script does not start with a frame: the run of frames before it is
    all that is available. *)
Definition no_frame_ahead (rest : list recv_result) : Prop :=
  match rest with
  | RecvMsg _ :: _ => False
  | _ => True
  end.

(** How a run of the bus-to-client loop from [w] to [w'] looks when the bus
    failed with [d] and [post] was still to come: calm calls [tr1], the
    failing poll, then [tr2] without any call to the adapter and with the
    one exception event queued, then the shutdown.  [b] is the answer of the
    last writability check, which decides whether the exception reached the
    socket. *)
Definition ended_by_bus_error (w w' : world) (d : string)
    (post : list recv_result) : Prop :=
  exists tr1 t tr2 b,
    trace w' = trace w ++ tr1 ++ OBusRecv t (RecvError d) :: tr2 ++ [OBusShutdown] /\
    Forall (fun o => calm o = true) tr1 /\
    adapter_calls tr2 = [] /\
    List.filter is_exception_enqueue tr2 = [OEnqueue (RemoteException (CanError d))] /\
    stop_event w' = true /\
    recv_script w' = post /\
    last_select (tr1 ++ OBusRecv t (RecvError d) :: tr2) = Some b /\
    (if b then (exists X, delivered tr2 = X ++ [RemoteException (CanError d)])
               /\ outbuf w' = []
     else delivered tr2 = []
          /\ exists X, outbuf w' = X ++ [RemoteException (CanError d)]).

(** The frames a trace has handed to [bus.send], in order. *)
Definition sent_frames (tr : list op) : list Message :=
  flat_map (fun o => match o with OBusSend m => [m] | _ => [] end) tr.

(** The frames of the [CanMessage] events among [evs], in order. *)
Definition frames_of (evs : list event) : list Message :=
  flat_map (fun ev => match ev with CanMessage m => [m] | _ => [] end) evs.

(** The calls the client-to-bus loop makes: frames and periodic tasks for
    the adapter, and [TransmitFail] for the client. *)
Definition relay_op (o : op) : bool :=
  match o with
  | OBusSend _ | OBusSendPeriodic _ _ _ | OTaskModify _ _ | OTaskStop _
  | OEnqueue TransmitFail => true
  | _ => false
  end.

(** How many of the answers of [bus.send] are failures. *)
Definition failures (answers : list (option string)) : nat :=
  length (List.filter (fun a => match a with Some _ => true | None => false end)
            answers).

(** What the client-to-bus loop leaves alone. *)
Definition relay_frame (w w' : world) : Prop :=
  stop_event w' = stop_event w /\
  clients w' = clients w /\
  self w' = self w /\
  bus w' = bus w /\
  config w' = config w /\
  send_thread_started w' = send_thread_started w /\
  recv_script w' = recv_script w /\
  select_script w' = select_script w.

(** What the client-to-bus loop has done between [w] and [w'] when it has
    read the events [consumed]. *)
Definition relay_effect (consumed : list event) (w w' : world) : Prop :=
  exists tr used,
    inbox w = consumed ++ inbox w' /\
    trace w' = trace w ++ tr /\
    Forall (fun o => relay_op o = true) tr /\
    sent_frames tr = frames_of consumed /\
    outbuf w' = outbuf w ++ enqueued tr /\
    send_script w = used ++ send_script w' /\
    (length used <= length (frames_of consumed))%nat /\
    length (enqueued tr) = failures used.

(** Lines 69 and 74 of [handle]: the configuration the bus is opened with. *)
Definition negotiated_config (c : gmap string cfg_value) (bitrate : Z)
    (can_filters : list (Z * Z)) : gmap string cfg_value :=
  <["can_filters" := CfgFilters can_filters]>
    (setdefault "bitrate" (CfgInt bitrate) c).


Definition is_shutdown (o : op) : bool :=
  match o with
  | OBusShutdown => true
  | _ => false
  end.

(** A write to the socket that carries nothing. *)
Definition is_empty_write (o : op) : bool :=
  match o with
  | OSendall [] => true
  | _ => false
  end.

(** The events [_next_event_from_bus] makes of a run of answers. *)
Definition polled_events (answers : list recv_result) : list event :=
  omap event_of_recv answers.

(** What the bus-to-client loop has done between [w] and [w'], short of the
    shutdown: it has polled the answers [consumed], and every event they
    stand for has been written to the socket or is still queued, in order. *)
Definition forward_effect (consumed : list recv_result) (w w' : world) : Prop :=
  exists tr,
    recv_script w = consumed ++ recv_script w' /\
    trace w' = trace w ++ tr /\
    delivered tr ++ outbuf w' = outbuf w ++ polled_events consumed /\
    List.filter is_shutdown tr = [] /\
    List.filter is_empty_write tr = [] /\
    adapter_calls tr = List.filter is_poll tr.

Definition is_open (o : op) : bool :=
  match o with
  | OBusOpen _ => true
  | _ => false
  end.

(** What the inner loop of the bus-to-client loop does: polls, and events
    put on the outbound buffer. *)
Definition poll_or_enqueue (o : op) : bool :=
  match o with
  | OBusRecv _ _ | OEnqueue _ => true
  | _ => false
  end.

(** From [w] to [w'] the task registry has only grown: every registered
    ID keeps its handle, and every task is still there with the period and
    duration it was created with, stopped if it was stopped. *)
Definition registry_grows (w w' : world) : Prop :=
  (forall x h, send_tasks w !! x = Some h -> send_tasks w' !! x = Some h) /\
  (forall h t, tasks w !! h = Some t ->
     exists t', tasks w' !! h = Some t' /\
                task_period t' = task_period t /\
                task_duration t' = task_duration t /\
                (task_stopped t = true -> task_stopped t' = true)).

(** ** Proof tools *)

Ltac msimpl :=
  repeat (unfold mbind, M_bind, mret, M_ret, gets, modify, raise, block;
          simpl).

Ltac msimpl_in H :=
  repeat (unfold mbind, M_bind, mret, M_ret, gets, modify, raise, block in H;
          simpl in H).

(** ** The client-to-bus loop *)

Lemma receive_loop_unfold fuel w :
  receive_loop (S fuel) w =
  match receive_iteration w with
  | (Ret (Some _), w') => receive_loop fuel w'
  | (Ret None, w') => (Ret tt, w')
  | (Raise e, w') => (Raise e, w')
  | (Blocked, w') => (Blocked, w')
  end.
Proof.
  simpl. unfold mbind, M_bind.
  destruct (receive_iteration w) as [[[[]|]|e|] w']; reflexivity.
Qed.

(** One pass that reads [ev] and goes on leaves the loop where a fresh call
    on the state after the pass would be. *)
Lemma receive_from_client_step w w' :
  receive_iteration w = (Ret (Some tt), w') ->
  S (length (inbox w')) = length (inbox w) ->
  _receive_from_client w = _receive_from_client w'.
Proof.
  intros Hit Hlen. unfold _receive_from_client.
  rewrite <- Hlen, receive_loop_unfold, Hit. reflexivity.
Qed.

Lemma receive_iteration_dispatch w ev rest :
  stop_event w = false -> inbox w = ev :: rest ->
  receive_iteration w =
  match receive_dispatch ev (set_inbox rest w) with
  | (Ret Continue, w') => (Ret (Some tt), w')
  | (Ret Break, w') => (Ret None, w')
  | (Raise e, w') => (Raise e, w')
  | (Blocked, w') => (Blocked, w')
  end.
Proof.
  intros Hs Hi. unfold receive_iteration, _next_event. msimpl.
  rewrite Hs, Hi.
  destruct (receive_dispatch ev (set_inbox rest w)) as [[[]|e|] w']; reflexivity.
Qed.

(** C10: during relaying, an event that is neither a [CanMessage], a
    [ConnectionClosed], a [PeriodicMessageStart] nor a [PeriodicMessageStop]
    (a [BusRequest] or [FilterConfig] after the handshake, say) is skipped:
    the dispatch returns without an exception and without touching the
    world, so no adapter call is made and the registry, the liveness flag
    and the outbound buffer stay as they are; the pass only takes the event
    from the inbox, and the loop goes on with the next one. *)
Theorem C10_unhandled_event_ignored (w : world) (ev : event) (rest : list event) :
  unhandled ev = true ->
  stop_event w = false ->
  inbox w = ev :: rest ->
  receive_dispatch ev w = (Ret Continue, w) /\
  receive_iteration w = (Ret (Some tt), set_inbox rest w) /\
  _receive_from_client w = _receive_from_client (set_inbox rest w).
Proof.
  intros Hu Hs Hi.
  assert (Hd : forall v, receive_dispatch ev v = (Ret Continue, v))
    by (intros v; destruct ev; simpl in Hu; try discriminate; reflexivity).
  assert (Hit : receive_iteration w = (Ret (Some tt), set_inbox rest w))
    by (rewrite (receive_iteration_dispatch w ev rest Hs Hi), Hd; reflexivity).
  split; [apply Hd|]. split; [exact Hit|].
  apply receive_from_client_step; [exact Hit|].
  rewrite Hi. reflexivity.
Qed.

Lemma C10_witness :
  let w := fresh_world [] 7%nat ∅ [BusRequest 1 500000; ConnectionClosed]
             (fun _ => inl "mock0"%string) [] [] [] in
  receive_dispatch (BusRequest 1 500000) w = (Ret Continue, w) /\
  receive_iteration w = (Ret (Some tt), set_inbox [ConnectionClosed] w) /\
  _receive_from_client w = _receive_from_client (set_inbox [ConnectionClosed] w).
Proof.
  intros w.
  apply (C10_unhandled_event_ignored w (BusRequest 1 500000) [ConnectionClosed]);
    reflexivity.
Defined.

(** C2 (what the code does): a [PeriodicMessageStop] for an arbitration ID
    with no registered task is looked up with [self.send_tasks[...]], which
    raises [KeyError]: the loop ends with that exception.  Up to the raise
    nothing but the read has happened: no adapter call is made and the
    registry is the one from before. *)
Theorem C2_stop_unregistered_raises (w : world) (arb_id : Z) (rest : list event) :
  send_tasks w !! arb_id = None ->
  stop_event w = false ->
  inbox w = PeriodicMessageStop arb_id :: rest ->
  _receive_from_client w = (Raise (KeyError arb_id), set_inbox rest w) /\
  send_tasks (set_inbox rest w) = send_tasks w /\
  trace (set_inbox rest w) = trace w.
Proof.
  intros Hreg Hs Hi. split; [|split; reflexivity].
  unfold _receive_from_client. rewrite receive_loop_unfold.
  rewrite (receive_iteration_dispatch w _ rest Hs Hi).
  simpl. msimpl. rewrite Hreg. reflexivity.
Qed.

Lemma C2_witness :
  let w := fresh_world [7%nat] 7%nat ∅ [PeriodicMessageStop 5; ConnectionClosed]
             (fun _ => inl "mock0"%string) [] [] [] in
  _receive_from_client w = (Raise (KeyError 5), set_inbox [ConnectionClosed] w) /\
  send_tasks (set_inbox [ConnectionClosed] w) = send_tasks w /\
  trace (set_inbox [ConnectionClosed] w) = trace w.
Proof.
  intros w.
  apply (C2_stop_unregistered_raises w 5 [ConnectionClosed]); reflexivity.
Defined.

(** C3 as stated fails: after a [PeriodicMessageStop] for a registered ID
    the ID is still in the registry. *)
Lemma C3_counterexample :
  let w := set_send_tasks (fun _ => {[ 256 := 0%nat ]})
             (set_tasks (fun _ => [mkTask (mkMessage 256 []) 1%Q None false])
                (fresh_world [7%nat] 7%nat ∅ [] (fun _ => inl "mock0"%string)
                   [] [] [])) in
  send_tasks w !! 256 = Some 0%nat /\
  send_tasks (receive_dispatch (PeriodicMessageStop 256) w).2 !! 256 <> None.
Proof. split; [reflexivity|]. vm_compute. discriminate. Qed.

(** C3 (amended): a [PeriodicMessageStop] for an arbitration ID whose task
    is registered stops that task, by one [stop] call on its handle and
    nothing else, and raises nothing; the registry is left as it was, so
    the ID stays registered with the stopped task. *)
Theorem C3_stop_registered (w : world) (arb_id : Z) (h : nat) (t : task) :
  send_tasks w !! arb_id = Some h ->
  tasks w !! h = Some t ->
  exists w',
    receive_dispatch (PeriodicMessageStop arb_id) w = (Ret Continue, w') /\
    trace w' = trace w ++ [OTaskStop h] /\
    tasks w' !! h = Some (task_set_stopped t) /\
    (forall h', h' <> h -> tasks w' !! h' = tasks w !! h') /\
    send_tasks w' = send_tasks w /\
    send_tasks w' !! arb_id = Some h.
Proof.
  intros Hreg Ht. eexists. split.
  - simpl. msimpl. rewrite Hreg. unfold task_stop. msimpl. reflexivity.
  - simpl. repeat split; try assumption.
    + rewrite list_lookup_alter. rewrite decide_True by reflexivity.
      rewrite Ht. reflexivity.
    + intros h' Hne. rewrite list_lookup_alter.
      rewrite decide_False by congruence. reflexivity.
Qed.

Lemma C3_witness :
  let w := set_send_tasks (fun _ => {[ 256 := 0%nat ]})
             (set_tasks (fun _ => [mkTask (mkMessage 256 []) 1%Q None false])
                (fresh_world [7%nat] 7%nat ∅ [] (fun _ => inl "mock0"%string)
                   [] [] [])) in
  exists w',
    receive_dispatch (PeriodicMessageStop 256) w = (Ret Continue, w') /\
    trace w' = trace w ++ [OTaskStop 0] /\
    tasks w' !! 0%nat =
      Some (task_set_stopped (mkTask (mkMessage 256 []) 1%Q None false)) /\
    (forall h', h' <> 0%nat -> tasks w' !! h' = tasks w !! h') /\
    send_tasks w' = send_tasks w /\
    send_tasks w' !! 256 = Some 0%nat.
Proof.
  intros w.
  apply (C3_stop_registered w 256 0%nat (mkTask (mkMessage 256 []) 1%Q None false));
    reflexivity.
Defined.

(** C8: when the adapter's [send] fails for a [CanMessage], the pass makes
    that one [send] call, puts exactly one [TransmitFail] on the outbound
    buffer, and carries on: no exception leaves the pass, the liveness flag
    is still unset, and the loop goes on with the events that follow. *)
Theorem C8_send_failure_transmit_fail (w : world) (msg : Message)
    (desc : string) (srest : list (option string)) (rest : list event) :
  stop_event w = false ->
  inbox w = CanMessage msg :: rest ->
  send_script w = Some desc :: srest ->
  exists w',
    receive_iteration w = (Ret (Some tt), w') /\
    trace w' = trace w ++ [OBusSend msg; OEnqueue TransmitFail] /\
    outbuf w' = outbuf w ++ [TransmitFail] /\
    stop_event w' = false /\
    inbox w' = rest /\
    _receive_from_client w = _receive_from_client w'.
Proof.
  intros Hs Hi Hsend.
  assert (Hit : exists w', receive_iteration w = (Ret (Some tt), w') /\
     trace w' = trace w ++ [OBusSend msg; OEnqueue TransmitFail] /\
     outbuf w' = outbuf w ++ [TransmitFail] /\
     stop_event w' = false /\ inbox w' = rest).
  { eexists. split.
    - rewrite (receive_iteration_dispatch w _ rest Hs Hi).
      simpl. msimpl. unfold send_msg, bus_send. simpl. rewrite Hsend.
      unfold conn_send_event. msimpl. reflexivity.
    - simpl. rewrite <- app_assoc. repeat split; try assumption. }
  destruct Hit as (w' & Hit & Htr & Hout & Hst & Hin).
  exists w'. repeat split; try assumption.
  apply receive_from_client_step; [exact Hit|].
  rewrite Hin, Hi. reflexivity.
Qed.

Lemma C8_witness :
  let w := fresh_world [7%nat] 7%nat ∅
             [CanMessage (mkMessage 256 [Byte.x01]); ConnectionClosed]
             (fun _ => inl "mock0"%string) [Some "bus off"%string] [] [] in
  exists w',
    receive_iteration w = (Ret (Some tt), w') /\
    trace w' = trace w ++ [OBusSend (mkMessage 256 [Byte.x01]); OEnqueue TransmitFail] /\
    outbuf w' = outbuf w ++ [TransmitFail] /\
    stop_event w' = false /\
    inbox w' = [ConnectionClosed] /\
    _receive_from_client w = _receive_from_client w'.
Proof.
  intros w.
  apply (C8_send_failure_transmit_fail w (mkMessage 256 [Byte.x01])
           "bus off"%string [] [ConnectionClosed]); reflexivity.
Defined.

(** [send_msg] never lets an exception out; it makes one [send] call and
    touches only the send script, the outbound buffer and the trace. *)
Lemma send_msg_spec (m : Message) (w : world) :
  exists w' tr,
    send_msg m w = (Ret tt, w') /\
    trace w' = trace w ++ tr /\
    adapter_calls tr = [OBusSend m] /\
    stop_event w' = stop_event w /\
    inbox w' = inbox w /\
    send_tasks w' = send_tasks w /\
    tasks w' = tasks w /\
    clients w' = clients w /\
    self w' = self w /\
    bus w' = bus w.
Proof.
  unfold send_msg, bus_send.
  destruct (send_script w) as [|[desc|] srest].
  - exists (log (OBusSend m) w), [OBusSend m]. simpl. repeat split.
  - eexists. exists [OBusSend m; OEnqueue TransmitFail].
    split; [unfold conn_send_event; msimpl; reflexivity|].
    simpl. rewrite <- app_assoc. repeat split.
  - eexists. exists [OBusSend m]. split; [reflexivity|]. simpl. repeat split.
Qed.

Lemma adapter_calls_app (tr1 tr2 : list op) :
  adapter_calls (tr1 ++ tr2) = adapter_calls tr1 ++ adapter_calls tr2.
Proof. unfold adapter_calls. apply List.filter_app. Qed.

(** C9: a batch of N [CanMessage] events read by the client-to-bus loop
    makes the loop call the adapter exactly N times, each call a [send], one
    per event and in the order of the events; whether a send fails or not
    makes no difference.  After the batch the loop is where a fresh call on
    the remaining input would be, and with no input left it waits in the
    read. *)
Theorem C9_batch_sends_in_order (msgs : list Message) (w : world)
    (rest : list event) :
  stop_event w = false ->
  inbox w = map CanMessage msgs ++ rest ->
  exists w' tr,
    _receive_from_client w = _receive_from_client w' /\
    inbox w' = rest /\
    stop_event w' = false /\
    trace w' = trace w ++ tr /\
    adapter_calls tr = map OBusSend msgs /\
    length (adapter_calls tr) = length msgs /\
    (rest = [] -> _receive_from_client w = (Blocked, w')).
Proof.
  revert w. induction msgs as [|m msgs IH]; intros w Hs Hi.
  - exists w, []. simpl in *. rewrite app_nil_r.
    repeat split; try assumption.
    intros ->. unfold _receive_from_client. rewrite Hi. simpl.
    unfold receive_iteration, _next_event. msimpl. rewrite Hs, Hi. reflexivity.
  - simpl in Hi.
    destruct (send_msg_spec m (set_inbox (map CanMessage msgs ++ rest) w))
      as (w1 & tr1 & Hsend & Htr1 & Hcalls1 & Hst1 & Hin1 & _).
    assert (Hit : receive_iteration w = (Ret (Some tt), w1)).
    { rewrite (receive_iteration_dispatch w _ _ Hs Hi). simpl.
      unfold mbind, M_bind. rewrite Hsend. reflexivity. }
    simpl in Hst1, Hin1, Htr1.
    destruct (IH w1) as (w' & tr & Hrun & Hin & Hst & Htr & Hcalls & Hlen & Hend);
      [congruence | exact Hin1 |].
    exists w', (tr1 ++ tr). repeat split; try assumption.
    + rewrite <- Hrun. apply receive_from_client_step; [exact Hit|].
      rewrite Hin1, Hi. reflexivity.
    + rewrite Htr, Htr1, app_assoc. reflexivity.
    + rewrite adapter_calls_app, Hcalls1, Hcalls. reflexivity.
    + rewrite adapter_calls_app, Hcalls1, Hcalls. simpl.
      rewrite length_map. reflexivity.
    + intros Hr. rewrite <- (Hend Hr).
      apply receive_from_client_step; [exact Hit|].
      rewrite Hin1, Hi. reflexivity.
Qed.

Lemma C9_witness :
  let m1 := mkMessage 256 [Byte.x01; Byte.x02; Byte.x03] in
  let m2 := mkMessage 257 [] in
  let w := fresh_world [7%nat] 7%nat ∅ [CanMessage m1; CanMessage m2]
             (fun _ => inl "mock0"%string) [Some "bus off"%string] [] [] in
  exists w' tr,
    _receive_from_client w = _receive_from_client w' /\
    inbox w' = [] /\
    stop_event w' = false /\
    trace w' = trace w ++ tr /\
    adapter_calls tr = map OBusSend [m1; m2] /\
    length (adapter_calls tr) = length [m1; m2] /\
    (@nil event = [] -> _receive_from_client w = (Blocked, w')).
Proof.
  intros m1 m2 w.
  apply (C9_batch_sends_in_order [m1; m2] w []); reflexivity.
Defined.

(** The dispatch does not read from the client. *)
Lemma receive_dispatch_inbox (ev : event) (w w' : world) (r : result loop_ctl) :
  receive_dispatch ev w = (r, w') -> inbox w' = inbox w.
Proof.
  intros Hd. destruct ev; simpl in Hd;
    try (injection Hd as <- <-; reflexivity).
  - destruct (send_msg_spec msg w) as (w1 & tr & Hs & _ & _ & _ & Hin & _).
    unfold mbind, M_bind in Hd. rewrite Hs in Hd. injection Hd as <- <-.
    exact Hin.
  - msimpl_in Hd. destruct (send_tasks w !! arbitration_id msg) as [h|];
      injection Hd as <- <-; reflexivity.
  - msimpl_in Hd. destruct (send_tasks w !! arb_id) as [h|];
      injection Hd as <- <-; reflexivity.
Qed.

(** A pass that goes on has taken exactly one event from the inbox. *)
Lemma receive_iteration_consumes (w w' : world) :
  receive_iteration w = (Ret (Some tt), w') ->
  S (length (inbox w')) = length (inbox w).
Proof.
  intros Hit. unfold receive_iteration, _next_event in Hit. msimpl_in Hit.
  destruct (stop_event w); [discriminate|].
  destruct (inbox w) as [|ev rest]; [discriminate|].
  destruct (receive_dispatch ev (set_inbox rest w)) as [rd wd] eqn:Hd.
  apply receive_dispatch_inbox in Hd. simpl in Hd.
  destruct rd as [[]|e|]; try discriminate.
  injection Hit as <-. simpl. rewrite Hd. reflexivity.
Qed.

(** The loop never runs out of passes: any number of them above the number
    of events waiting gives the same run. *)
Lemma receive_loop_enough_fuel (f1 : nat) :
  forall (f2 : nat) (w : world),
  (length (inbox w) < f1)%nat -> (length (inbox w) < f2)%nat ->
  receive_loop f1 w = receive_loop f2 w.
Proof.
  induction f1 as [|f1 IH]; intros f2 w H1 H2; [lia|].
  destruct f2 as [|f2]; [lia|].
  rewrite !receive_loop_unfold.
  destruct (receive_iteration w) as [[[[]|]|e|] w'] eqn:Hit; try reflexivity.
  apply receive_iteration_consumes in Hit. apply IH; lia.
Qed.

(** ** The periodic task registry *)

Lemma registry_ok_frame (w w' : world) :
  send_tasks w' = send_tasks w -> tasks w' = tasks w ->
  registry_ok w -> registry_ok w'.
Proof. unfold registry_ok. intros -> ->. trivial. Qed.

Lemma registry_ok_unique (w : world) (h1 h2 : nat) (t1 t2 : task) :
  registry_ok w ->
  tasks w !! h1 = Some t1 -> tasks w !! h2 = Some t2 ->
  arbitration_id (task_msg t1) = arbitration_id (task_msg t2) -> h1 = h2.
Proof.
  intros [Hfwd _] H1 H2 Hid.
  apply Hfwd in H1. apply Hfwd in H2. rewrite Hid in H1. congruence.
Qed.

(** Changing a task without changing the ID of its frame keeps the registry
    and the tasks in agreement. *)
Lemma registry_ok_alter (w : world) (f : task -> task) (h : nat) :
  (forall t, tasks w !! h = Some t ->
     arbitration_id (task_msg (f t)) = arbitration_id (task_msg t)) ->
  registry_ok w -> registry_ok (set_tasks (alter f h) w).
Proof.
  intros Hf [Hfwd Hbwd]. split; simpl.
  - intros h' t'. rewrite list_lookup_alter. case_decide as Hh.
    + subst h'. destruct (tasks w !! h) as [t|] eqn:Ht; simpl; [|discriminate].
      intros [= <-]. rewrite (Hf t eq_refl). apply Hfwd, Ht.
    + apply Hfwd.
  - intros x h' Hx. destruct (Hbwd x h' Hx) as (t & Ht & Hid).
    rewrite list_lookup_alter. case_decide as Hh.
    + subst h'. rewrite Ht. simpl. exists (f t). split; [reflexivity|].
      rewrite (Hf t Ht). exact Hid.
    + exists t. split; assumption.
Qed.

(** A task created for an ID that was not registered, and registered under
    that ID. *)
Lemma registry_ok_new (w : world) (t : task) :
  send_tasks w !! arbitration_id (task_msg t) = None ->
  registry_ok w ->
  registry_ok
    (set_send_tasks <[arbitration_id (task_msg t) := length (tasks w)]>
       (set_tasks (fun ts => ts ++ [t]) w)).
Proof.
  intros Hnew [Hfwd Hbwd]. split; simpl.
  - intros h' t' Hl. apply lookup_app_Some in Hl as [Hl | [Hlen Hl]].
    + pose proof (Hfwd _ _ Hl) as Hreg.
      rewrite lookup_insert_ne; [exact Hreg|]. congruence.
    + destruct (h' - length (tasks w))%nat as [|k] eqn:Hk; simpl in Hl;
        [|discriminate].
      injection Hl as <-. replace h' with (length (tasks w)) by lia.
      apply lookup_insert_eq.
  - intros x h'. rewrite lookup_insert. case_decide as Hx.
    + intros [= <-]. subst x. exists t. split; [|reflexivity].
      rewrite lookup_app_r by lia. rewrite Nat.sub_diag. reflexivity.
    + intros Hreg. destruct (Hbwd x h' Hreg) as (t' & Ht' & Hid).
      exists t'. split; [|exact Hid]. apply lookup_app_l_Some, Ht'.
Qed.

Lemma log_registry_ok (o : op) (w : world) : registry_ok w -> registry_ok (log o w).
Proof. apply registry_ok_frame; reflexivity. Qed.

(** Whatever event is dispatched, and however the dispatch ends, registry
    and tasks agree afterwards if they did before. *)
Lemma receive_dispatch_registry_ok (ev : event) (w w' : world) (r : result loop_ctl) :
  registry_ok w -> receive_dispatch ev w = (r, w') -> registry_ok w'.
Proof.
  intros Hok Hd. destruct ev; simpl in Hd;
    try (injection Hd as <- <-; exact Hok).
  - destruct (send_msg_spec msg w) as (w1 & tr & Hs & _ & _ & _ & _ & Hreg & Ht & _).
    unfold mbind, M_bind in Hd. rewrite Hs in Hd. injection Hd as <- <-.
    exact (registry_ok_frame w w1 Hreg Ht Hok).
  - msimpl_in Hd. destruct (send_tasks w !! arbitration_id msg) as [h|] eqn:Hreg.
    + unfold task_modify_data in Hd. msimpl_in Hd. injection Hd as <- <-.
      apply log_registry_ok, registry_ok_alter; [|exact Hok].
      intros t Ht. simpl. destruct Hok as [Hfwd Hbwd].
      destruct (Hbwd _ _ Hreg) as (t0 & Ht0 & Hid). congruence.
    + unfold bus_send_periodic in Hd. msimpl_in Hd. injection Hd as <- <-.
      apply (registry_ok_frame
               (set_send_tasks <[arbitration_id msg := length (tasks w)]>
                  (set_tasks (fun ts => ts ++ [mkTask msg period duration false]) w)));
        [reflexivity | reflexivity |].
      apply (registry_ok_new w (mkTask msg period duration false)); assumption.
  - msimpl_in Hd. destruct (send_tasks w !! arb_id) as [h|] eqn:Hreg.
    + unfold task_stop in Hd. msimpl_in Hd. injection Hd as <- <-.
      apply log_registry_ok, registry_ok_alter; [|exact Hok].
      intros t _. reflexivity.
    + injection Hd as <- <-. exact Hok.
Qed.

Lemma receive_iteration_registry_ok (w w' : world) (r : result (option unit)) :
  registry_ok w -> receive_iteration w = (r, w') -> registry_ok w'.
Proof.
  intros Hok Hit. unfold receive_iteration, _next_event in Hit. msimpl_in Hit.
  destruct (stop_event w); [injection Hit as <- <-; exact Hok|].
  destruct (inbox w) as [|ev rest]; [injection Hit as <- <-; exact Hok|].
  destruct (receive_dispatch ev (set_inbox rest w)) as [rd wd] eqn:Hd.
  apply receive_dispatch_registry_ok in Hd;
    [|apply (registry_ok_frame w); [reflexivity | reflexivity | exact Hok]].
  destruct rd as [[]|e|]; injection Hit as <- <-; exact Hd.
Qed.

Lemma relay_steps_registry_ok (w0 w : world) :
  registry_ok w0 -> relay_steps w0 w -> registry_ok w.
Proof.
  intros Hok Hsteps. induction Hsteps as [|w r w1 w2 Hit _ IH]; [exact Hok|].
  apply IH. exact (receive_iteration_registry_ok _ _ _ Hok Hit).
Qed.

(** C5 as stated fails: two starts in a row for one ID need not leave an
    active task.  In a state the loop reaches by a start and a stop for
    the ID, the ID is still registered with the stopped task; the two starts
    only replace its frame, and the one task for the ID is still stopped. *)
Lemma C5_counterexample :
  let m0 := mkMessage 256 [Byte.x00] in
  let m1 := mkMessage 256 [Byte.x01] in
  let m2 := mkMessage 256 [Byte.x02] in
  let w0 := fresh_world [7%nat] 7%nat ∅
              [PeriodicMessageStart m0 1%Q None; PeriodicMessageStop 256]
              (fun _ => inl "mock0"%string) [] [] [] in
  let w := (receive_iteration (receive_iteration w0).2).2 in
  let w1 := (receive_dispatch (PeriodicMessageStart m1 (1#2)%Q None) w).2 in
  let w2 := (receive_dispatch (PeriodicMessageStart m2 (1#4)%Q None) w1).2 in
  registry_ok w0 /\
  relay_steps w0 w /\
  tasks w2 = [mkTask m2 1%Q None true] /\
  ~ (exists h t, tasks w2 !! h = Some t /\
                 arbitration_id (task_msg t) = 256 /\
                 task_stopped t = false).
Proof.
  intros m0 m1 m2 w0 w w1 w2.
  assert (Ht : tasks w2 = [mkTask m2 1%Q None true]) by (vm_compute; reflexivity).
  split; [|split; [|split; [exact Ht|]]].
  - split; simpl.
    + intros h t Hl. rewrite lookup_nil in Hl. discriminate.
    + intros x h Hl. rewrite lookup_empty in Hl. discriminate.
  - apply (relay_next w0 (receive_iteration w0).1 (receive_iteration w0).2 w);
      [vm_compute; reflexivity|].
    apply (relay_next _ (receive_iteration (receive_iteration w0).2).1 w w);
      [vm_compute; reflexivity|].
    apply relay_here.
  - rewrite Ht. intros (h & t & Hl & _ & Hrun).
    destruct h as [|h]; simpl in Hl; [|rewrite lookup_nil in Hl; discriminate].
    injection Hl as <-. discriminate Hrun.
Qed.

(** C5 (amended): in every state the client-to-bus loop reaches from one in
    which registry and tasks agree (a session that has just opened its bus
    has neither), no two task objects send frames of the same arbitration
    ID.  A [PeriodicMessageStart] for an ID that is registered makes no
    [send_periodic] call: it calls [modify_data] on the registered task,
    which then carries the new frame, and neither the registry nor the
    number of tasks changes.  Two starts in a row for one ID leave exactly
    one task for it, registered under the ID and carrying the frame of the
    second start.  When the ID was not registered before, that task is the
    one the first start created, and it is running; when the ID was
    registered, it is the task that was registered, with the period, the
    duration and the stopped flag it had: a task that had been stopped is
    still stopped. *)
Theorem C5_one_task_per_id (w0 w : world) :
  registry_ok w0 ->
  relay_steps w0 w ->
  (forall h1 h2 t1 t2,
     tasks w !! h1 = Some t1 -> tasks w !! h2 = Some t2 ->
     arbitration_id (task_msg t1) = arbitration_id (task_msg t2) -> h1 = h2) /\
  (forall msg period duration h,
     send_tasks w !! arbitration_id msg = Some h ->
     exists w' t,
       receive_dispatch (PeriodicMessageStart msg period duration) w
         = (Ret Continue, w') /\
       trace w' = trace w ++ [OTaskModify h msg] /\
       send_tasks w' = send_tasks w /\
       length (tasks w') = length (tasks w) /\
       tasks w !! h = Some t /\
       tasks w' !! h = Some (task_set_msg msg t)) /\
  (forall m1 m2 p1 d1 p2 d2,
     arbitration_id m1 = arbitration_id m2 ->
     exists w1 w2 h t,
       receive_dispatch (PeriodicMessageStart m1 p1 d1) w = (Ret Continue, w1) /\
       receive_dispatch (PeriodicMessageStart m2 p2 d2) w1 = (Ret Continue, w2) /\
       send_tasks w2 !! arbitration_id m1 = Some h /\
       tasks w2 !! h = Some t /\
       task_msg t = m2 /\
       (forall h' t', tasks w2 !! h' = Some t' ->
          arbitration_id (task_msg t') = arbitration_id m1 -> h' = h) /\
       (send_tasks w !! arbitration_id m1 = None ->
          t = mkTask m2 p1 d1 false /\
          length (tasks w2) = S (length (tasks w))) /\
       (forall h0 t0,
          send_tasks w !! arbitration_id m1 = Some h0 ->
          tasks w !! h0 = Some t0 ->
          h = h0 /\
          t = mkTask m2 (task_period t0) (task_duration t0) (task_stopped t0) /\
          length (tasks w2) = length (tasks w))).
Proof.
  intros Hok0 Hsteps.
  pose proof (relay_steps_registry_ok w0 w Hok0 Hsteps) as Hok.
  split; [|split].
  - intros h1 h2 t1 t2. apply registry_ok_unique, Hok.
  - intros msg period duration h Hreg.
    destruct Hok as [_ Hbwd]. destruct (Hbwd _ _ Hreg) as (t & Ht & _).
    eexists. exists t. split.
    + simpl. msimpl. rewrite Hreg. unfold task_modify_data. msimpl. reflexivity.
    + simpl. repeat split; try assumption.
      * apply length_alter.
      * rewrite list_lookup_alter, decide_True by reflexivity.
        rewrite Ht. reflexivity.
  - intros m1 m2 p1 d1 p2 d2 Hid.
    destruct (send_tasks w !! arbitration_id m1) as [h0|] eqn:Hreg.
    + destruct (proj2 Hok _ _ Hreg) as (t0 & Ht0 & _).
      set (w1 := log (OTaskModify h0 m1)
                   (set_tasks (alter (task_set_msg m1) h0) w)).
      set (w2 := log (OTaskModify h0 m2)
                   (set_tasks (alter (task_set_msg m2) h0) w1)).
      assert (H1 : receive_dispatch (PeriodicMessageStart m1 p1 d1) w
                   = (Ret Continue, w1)).
      { simpl. msimpl. rewrite Hreg. reflexivity. }
      assert (H2 : receive_dispatch (PeriodicMessageStart m2 p2 d2) w1
                   = (Ret Continue, w2)).
      { simpl. msimpl. rewrite <- Hid, Hreg. reflexivity. }
      pose proof (receive_dispatch_registry_ok _ _ _ _ Hok H1) as Hok1.
      pose proof (receive_dispatch_registry_ok _ _ _ _ Hok1 H2) as Hok2.
      assert (Hh : tasks w2 !! h0
                   = Some (task_set_msg m2 (task_set_msg m1 t0))).
      { simpl. rewrite !list_lookup_alter, !decide_True by reflexivity.
        rewrite Ht0. reflexivity. }
      exists w1, w2, h0, (task_set_msg m2 (task_set_msg m1 t0)).
      split; [exact H1|]. split; [exact H2|].
      split; [exact Hreg|]. split; [exact Hh|]. split; [reflexivity|].
      split; [|split].
      * intros h' t' Ht' Hid'.
        apply (registry_ok_unique _ h' h0 t' _ Hok2 Ht' Hh).
        simpl. congruence.
      * discriminate.
      * intros h0' t0' [= <-] Ht0'. rewrite Ht0 in Ht0'. injection Ht0' as <-.
        split; [reflexivity|]. split; [reflexivity|].
        simpl. rewrite !length_alter. reflexivity.
    + set (w1 := set_send_tasks <[arbitration_id m1 := length (tasks w)]>
                   (log (OBusSendPeriodic m1 p1 d1)
                      (set_tasks (fun ts => ts ++ [mkTask m1 p1 d1 false]) w))).
      set (w2 := log (OTaskModify (length (tasks w)) m2)
                   (set_tasks (alter (task_set_msg m2) (length (tasks w))) w1)).
      assert (H1 : receive_dispatch (PeriodicMessageStart m1 p1 d1) w
                   = (Ret Continue, w1)).
      { simpl. msimpl. rewrite Hreg. reflexivity. }
      assert (H2 : receive_dispatch (PeriodicMessageStart m2 p2 d2) w1
                   = (Ret Continue, w2)).
      { simpl. msimpl. rewrite <- Hid, lookup_insert_eq. reflexivity. }
      pose proof (receive_dispatch_registry_ok _ _ _ _ Hok H1) as Hok1.
      pose proof (receive_dispatch_registry_ok _ _ _ _ Hok1 H2) as Hok2.
      assert (Hh : tasks w2 !! length (tasks w) = Some (mkTask m2 p1 d1 false)).
      { simpl. rewrite list_lookup_alter, decide_True by reflexivity.
        rewrite lookup_app_r by lia. rewrite Nat.sub_diag. reflexivity. }
      exists w1, w2, (length (tasks w)), (mkTask m2 p1 d1 false).
      split; [exact H1|]. split; [exact H2|].
      split; [simpl; apply lookup_insert_eq|].
      split; [exact Hh|]. split; [reflexivity|].
      split; [|split].
      * intros h' t' Ht' Hid'.
        apply (registry_ok_unique _ h' (length (tasks w)) t' _ Hok2 Ht' Hh).
        simpl. congruence.
      * intros _. split; [reflexivity|].
        simpl. rewrite length_alter, length_app. simpl. lia.
      * intros h0 t0 Hx. discriminate Hx.
Qed.

Lemma registry_ok_fresh cl me cfg inb opener sends recvs sels :
  registry_ok (fresh_world cl me cfg inb opener sends recvs sels).
Proof.
  split; simpl.
  - intros h t Hl. rewrite lookup_nil in Hl. discriminate.
  - intros x h Hl. rewrite lookup_empty in Hl. discriminate.
Qed.

Lemma C5_witness :
  let m1 := mkMessage 256 [Byte.x01] in
  let m2 := mkMessage 256 [Byte.x02; Byte.x03] in
  let w0 := fresh_world [7%nat] 7%nat ∅
              [PeriodicMessageStart m1 1%Q None;
               PeriodicMessageStart m2 (1#2)%Q (Some 5%Q)]
              (fun _ => inl "mock0"%string) [] [] [] in
  let w := (receive_iteration (receive_iteration w0).2).2 in
  registry_ok w0 /\
  relay_steps w0 w /\
  tasks w = [mkTask m2 1%Q None false] /\
  (forall h1 h2 t1 t2,
     tasks w !! h1 = Some t1 -> tasks w !! h2 = Some t2 ->
     arbitration_id (task_msg t1) = arbitration_id (task_msg t2) -> h1 = h2).
Proof.
  intros m1 m2 w0 w.
  assert (Hok : registry_ok w0) by apply registry_ok_fresh.
  assert (Hsteps : relay_steps w0 w).
  { apply (relay_next w0 (receive_iteration w0).1 (receive_iteration w0).2 w);
      [vm_compute; reflexivity|].
    apply (relay_next _ (receive_iteration (receive_iteration w0).2).1 w w);
      [vm_compute; reflexivity|].
    apply relay_here. }
  split; [exact Hok|]. split; [exact Hsteps|]. split; [vm_compute; reflexivity|].
  exact (proj1 (C5_one_task_per_id w0 w Hok Hsteps)).
Defined.

(** ** Handshake and teardown *)

(** C4: a first event [BusRequest] whose version is not the server's
    protocol version makes [handle] raise the protocol-version-mismatch
    [RemoteServerError] straight after the read.  The adapter's open is not
    called (the whole session, teardown included, adds nothing to the
    trace), no bus is held, and the send thread is never started: the
    session does not get to relaying. *)
Theorem C4_version_mismatch (pv : Z) (w : world) (version bitrate : Z)
    (rest : list event) :
  version <> pv ->
  inbox w = BusRequest version bitrate :: rest ->
  handle pv w =
    (Raise (RemoteServerError (ProtocolVersionMismatch version pv)),
     set_inbox rest w) /\
  exists w',
    BaseRequestHandler_init pv w =
      (Raise (RemoteServerError (ProtocolVersionMismatch version pv)), w') /\
    trace w' = trace w /\
    bus w' = None /\
    send_thread_started w' = false /\
    inbox w' = rest.
Proof.
  intros Hv Hi.
  assert (Hh : forall v, inbox v = BusRequest version bitrate :: rest ->
            handle pv v =
              (Raise (RemoteServerError (ProtocolVersionMismatch version pv)),
               set_inbox rest v)).
  { intros v Hv'. unfold handle, _next_event. msimpl. rewrite Hv'.
    rewrite decide_True by exact Hv. reflexivity. }
  split; [apply Hh, Hi|].
  unfold BaseRequestHandler_init, setup. msimpl.
  rewrite Hh by exact Hi. unfold finish. simpl.
  destruct (remove_first (self w) (clients w ++ [self w])) as [l|] eqn:Hrm.
  - eexists. split; [reflexivity|]. simpl. repeat split.
  - exfalso. clear -Hrm. induction (clients w) as [|y l IH]; simpl in Hrm.
    + rewrite decide_True in Hrm by reflexivity. discriminate.
    + destruct (decide (y = self w)); [discriminate|].
      destruct (remove_first (self w) (l ++ [self w])); [discriminate|].
      apply IH. reflexivity.
Qed.

Lemma C4_witness :
  let w := fresh_world [] 7%nat ∅ [BusRequest 2 500000; FilterConfig []]
             (fun _ => inl "mock0"%string) [] [] [] in
  handle 1 w =
    (Raise (RemoteServerError (ProtocolVersionMismatch 2 1)),
     set_inbox [FilterConfig []] w) /\
  exists w',
    BaseRequestHandler_init 1 w =
      (Raise (RemoteServerError (ProtocolVersionMismatch 2 1)), w') /\
    trace w' = trace w /\
    bus w' = None /\
    send_thread_started w' = false /\
    inbox w' = [FilterConfig []].
Proof.
  intros w.
  apply (C4_version_mismatch 1 w 2 500000 [FilterConfig []]);
    [discriminate | reflexivity].
Defined.

(** The relay loop leaves the server's list, the session's identity and
    its bus handle alone. *)
Lemma receive_dispatch_server (ev : event) (w w' : world) (r : result loop_ctl) :
  receive_dispatch ev w = (r, w') ->
  clients w' = clients w /\ self w' = self w /\ bus w' = bus w.
Proof.
  intros Hd. destruct ev; simpl in Hd;
    try (injection Hd as <- <-; repeat split).
  - destruct (send_msg_spec msg w) as (w1 & tr & Hs & _ & _ & _ & _ & _ & _ & Hc & Hme & Hb).
    unfold mbind, M_bind in Hd. rewrite Hs in Hd. injection Hd as <- <-.
    repeat split; assumption.
  - msimpl_in Hd. destruct (send_tasks w !! arbitration_id msg) as [h|];
      injection Hd as <- <-; repeat split.
  - msimpl_in Hd. destruct (send_tasks w !! arb_id) as [h|];
      injection Hd as <- <-; repeat split.
Qed.

Lemma receive_iteration_server (w w' : world) (r : result (option unit)) :
  receive_iteration w = (r, w') ->
  clients w' = clients w /\ self w' = self w /\ bus w' = bus w.
Proof.
  intros Hit. unfold receive_iteration, _next_event in Hit. msimpl_in Hit.
  destruct (stop_event w); [injection Hit as <- <-; repeat split|].
  destruct (inbox w) as [|ev rest]; [injection Hit as <- <-; repeat split|].
  destruct (receive_dispatch ev (set_inbox rest w)) as [rd wd] eqn:Hd.
  apply receive_dispatch_server in Hd. simpl in Hd.
  destruct rd as [[]|e|]; injection Hit as <- <-; exact Hd.
Qed.

Lemma receive_loop_server (fuel : nat) (w w' : world) (r : result unit) :
  receive_loop fuel w = (r, w') ->
  clients w' = clients w /\ self w' = self w /\ bus w' = bus w.
Proof.
  revert w. induction fuel as [|fuel IH]; intros w Hl.
  - injection Hl as <- <-. repeat split.
  - rewrite receive_loop_unfold in Hl.
    destruct (receive_iteration w) as [ri wi] eqn:Hit.
    apply receive_iteration_server in Hit. destruct Hit as (Hc & Hme & Hb).
    destruct ri as [[[]|]|e|].
    + apply IH in Hl. destruct Hl as (Hc' & Hme' & Hb').
      repeat split; congruence.
    + injection Hl as <- <-. repeat split; assumption.
    + injection Hl as <- <-. repeat split; assumption.
    + injection Hl as <- <-. repeat split; assumption.
Qed.

(** [handle] either ends before a bus is held, by an exception or waiting
    for the client, with the client list untouched; or it has opened the
    bus, and then it has appended the session to the client list. *)
Lemma handle_server (pv : Z) (w w' : world) (r : result unit) :
  handle pv w = (r, w') ->
  self w' = self w /\
  ((bus w' = bus w /\ clients w' = clients w /\ r <> Ret tt) \/
   (exists info, bus w' = Some info /\ clients w' = clients w ++ [self w])).
Proof.
  unfold handle, _next_event. msimpl.
  destruct (inbox w) as [|ev1 rest1];
    [intros [= <- <-]; split; [|left]; repeat split; discriminate|].
  destruct ev1;
    try (intros [= <- <-]; split; [|left]; repeat split; discriminate).
  case_decide; [intros [= <- <-]; split; [|left]; repeat split; discriminate|].
  destruct rest1 as [|ev2 rest2];
    [intros [= <- <-]; split; [|left]; repeat split; discriminate|].
  destruct ev2;
    try (intros [= <- <-]; split; [|left]; repeat split; discriminate).
  unfold open_bus. msimpl.
  match goal with |- context [bus_open w ?c] => destruct (bus_open w c) as [info|e] end.
  - unfold conn_send_event, flush_to_client, conn_next_data, request_sendall.
    msimpl. unfold _receive_from_client.
    match goal with |- receive_loop ?f ?v = _ -> _ =>
      intros Hl; apply receive_loop_server in Hl; simpl in Hl end.
    destruct Hl as (Hc & Hme & Hb). split; [exact Hme|].
    right. exists info. split; assumption.
  - unfold conn_send_event, flush_to_client, conn_next_data, request_sendall.
    msimpl. intros [= <- <-]. split; [|left]; repeat split; discriminate.
Qed.

Lemma remove_first_count (x : nat) (l : list nat) (n : nat) :
  count_occ Nat.eq_dec l x = S n ->
  exists l', remove_first x l = Some l' /\ count_occ Nat.eq_dec l' x = n.
Proof.
  induction l as [|y l IH]; simpl; [discriminate|].
  destruct (Nat.eq_dec y x) as [->|Hne].
  - intros [= Hn]. rewrite decide_True by reflexivity. eauto.
  - intros Hn. rewrite decide_False by exact Hne.
    destruct (IH Hn) as (l' & -> & Hc). exists (y :: l'). split; [reflexivity|].
    simpl. destruct (Nat.eq_dec y x); [contradiction | exact Hc].
Qed.

(** C1 (what the code does): the session is appended to [server.clients] in
    [setup] and once more in [handle] after the bus has been opened, and
    [finish] removes one occurrence.  So a session that is torn down before
    it holds a bus (handshake failure, failed open) leaves the list with no
    entry of its own, but one that has opened its bus is in the list twice
    while it relays and is still in it once after teardown, whatever ended
    the relay. *)
Theorem C1_registration_count (pv : Z) (w : world) :
  let res := BaseRequestHandler_init pv w in
  self res.2 = self w /\
  match res.1, bus res.2 with
  | Blocked, None => registrations res.2 = S (registrations w)
  | Blocked, Some _ => registrations res.2 = S (S (registrations w))
  | _, None => registrations res.2 = registrations w
  | _, Some _ => registrations res.2 = S (registrations w)
  end.
Proof.
  simpl. unfold BaseRequestHandler_init, setup. msimpl.
  match goal with |- context [handle pv ?v] =>
    destruct (handle pv v) as [r w2] eqn:Hh end.
  apply handle_server in Hh. simpl in Hh. destruct Hh as (Hme & Hcases).
  assert (Hreg2 : forall k, clients w2 = (clients w ++ [self w]) ++ k ->
            registrations w2 =
            (registrations w + 1 + count_occ Nat.eq_dec k (self w))%nat).
  { intros k Hk. unfold registrations. rewrite Hme, Hk, !count_occ_app. simpl.
    destruct (Nat.eq_dec (self w) (self w)); [lia | contradiction]. }
  assert (Hfin : forall n, registrations w2 = S n ->
            exists l, finish w2 =
                        (Ret tt, set_stop_event true (set_clients (fun _ => l) w2)) /\
                      count_occ Nat.eq_dec l (self w) = n).
  { intros n Hn. unfold registrations in Hn.
    destruct (remove_first_count _ _ _ Hn) as (l & Hrm & Hc).
    exists l. unfold finish. rewrite Hrm. rewrite <- Hme. split; [reflexivity | exact Hc]. }
  destruct Hcases as [(Hb & Hc & Hr) | (info & Hb & Hc)].
  - specialize (Hreg2 [] ltac:(rewrite app_nil_r; exact Hc)). simpl in Hreg2.
    destruct (Hfin (registrations w) ltac:(lia)) as (l & Hf & Hcount).
    destruct r as [[]|e|]; [contradiction | |].
    + rewrite Hf. simpl. rewrite Hb. split; [exact Hme|].
      unfold registrations. simpl. rewrite Hme. exact Hcount.
    + simpl. rewrite Hb. split; [exact Hme|]. lia.
  - specialize (Hreg2 [self w] Hc). simpl in Hreg2.
    destruct (Nat.eq_dec (self w) (self w)) as [_|Hne]; [|contradiction].
    destruct (Hfin (S (registrations w)) ltac:(lia)) as (l & Hf & Hcount).
    destruct r as [[]|e|].
    + rewrite Hf. simpl. rewrite Hb. split; [exact Hme|].
      unfold registrations. simpl. rewrite Hme. exact Hcount.
    + rewrite Hf. simpl. rewrite Hb. split; [exact Hme|].
      unfold registrations. simpl. rewrite Hme. exact Hcount.
    + simpl. rewrite Hb. split; [exact Hme|]. lia.
Qed.

(** A session that shakes hands, opens its bus and is closed by the client
    is still in the server's list after [finish]. *)
Example C1_stale_entry_after_close :
  let w := fresh_world [] 7%nat ∅
             [BusRequest 1 500000; FilterConfig []; ConnectionClosed]
             (fun _ => inl "mock0"%string) [] [] [] in
  (BaseRequestHandler_init 1 w).1 = Ret tt /\
  clients (BaseRequestHandler_init 1 w).2 = [7%nat].
Proof. vm_compute. split; reflexivity. Qed.

(** ** The bus-to-client loop *)

Lemma next_event_from_bus_cons (t : Q) (r : recv_result)
    (rest : list recv_result) (w : world) :
  recv_script w = r :: rest ->
  _next_event_from_bus t w =
    (Ret (event_of_recv r), log (OBusRecv t r) (set_recv_script rest w)).
Proof.
  intros Hs. unfold _next_event_from_bus, bus_recv. rewrite Hs.
  destruct r; reflexivity.
Qed.

Lemma next_event_from_bus_nil (t : Q) (w : world) :
  recv_script w = [] ->
  _next_event_from_bus t w = (Ret None, log (OBusRecv t RecvNone) w).
Proof.
  intros Hs. unfold _next_event_from_bus, bus_recv. rewrite Hs. reflexivity.
Qed.

Lemma drain_loop_message (fuel : nat) (m : Message) (w : world) :
  drain_loop (S fuel) (Some (CanMessage m)) w =
  match _next_event_from_bus 0%Q (log (OEnqueue (CanMessage m))
                                   (set_outbuf (fun b => b ++ [CanMessage m]) w)) with
  | (Ret ev, w') => drain_loop fuel ev w'
  | (Raise e, w') => (Raise e, w')
  | (Blocked, w') => (Blocked, w')
  end.
Proof. reflexivity. Qed.

Lemma drain_loop_exception (fuel : nat) (e : exn) (w : world) :
  drain_loop fuel (Some (RemoteException e)) w =
  (Ret tt, set_stop_event true
             (log (OEnqueue (RemoteException e))
                (set_outbuf (fun b => b ++ [RemoteException e]) w))).
Proof. destruct fuel; reflexivity. Qed.

Lemma drain_loop_none (fuel : nat) (w : world) :
  drain_loop fuel None w = (Ret tt, w).
Proof. destruct fuel; reflexivity. Qed.

(** The inner loop, entered with a frame [m] in hand while the bus has the
    frames [ms] ready and then either nothing, or an error. *)
Lemma drain_loop_spec (ms : list Message) :
  forall (m : Message) (w : world) (fuel : nat) (rest : list recv_result),
  recv_script w = map RecvMsg ms ++ rest ->
  no_frame_ahead rest ->
  (length (recv_script w) < fuel)%nat ->
  exists w' tr,
    drain_loop fuel (Some (CanMessage m)) w = (Ret tt, w') /\
    trace w' = trace w ++ tr /\
    select_script w' = select_script w /\
    recv_script w' = tail rest /\
    match rest with
    | RecvError d :: _ =>
        exists tr1,
          tr = tr1 ++ [OBusRecv 0%Q (RecvError d);
                       OEnqueue (RemoteException (CanError d))] /\
          Forall (fun o => drain_op o = true) tr1 /\
          outbuf w' = outbuf w ++ map CanMessage (m :: ms)
                        ++ [RemoteException (CanError d)] /\
          stop_event w' = true
    | _ =>
        Forall (fun o => drain_op o = true) tr /\
        enqueued tr = map CanMessage (m :: ms) /\
        outbuf w' = outbuf w ++ map CanMessage (m :: ms) /\
        stop_event w' = stop_event w
    end.
Proof.
  induction ms as [|a ms IH]; intros m w fuel rest Hs Hrest Hfuel.
  - simpl in Hs. destruct fuel as [|fuel]; [lia|].
    rewrite drain_loop_message.
    destruct rest as [|[m'| |d] post]; [| destruct Hrest | |].
    + rewrite next_event_from_bus_nil by exact Hs. rewrite drain_loop_none.
      eexists. exists [OEnqueue (CanMessage m); OBusRecv 0%Q RecvNone].
      split; [reflexivity|]. simpl. rewrite <- app_assoc.
      repeat split; try assumption. repeat constructor.
    + rewrite (next_event_from_bus_cons _ RecvNone post) by exact Hs.
      simpl. rewrite drain_loop_none.
      eexists. exists [OEnqueue (CanMessage m); OBusRecv 0%Q RecvNone].
      split; [reflexivity|]. simpl. rewrite <- app_assoc.
      repeat split. repeat constructor.
    + rewrite (next_event_from_bus_cons _ (RecvError d) post) by exact Hs.
      simpl event_of_recv. cbv iota beta. rewrite drain_loop_exception.
      eexists. eexists.
      split; [reflexivity|]. simpl. rewrite <- !app_assoc. simpl.
      split; [reflexivity|]. split; [reflexivity|]. split; [reflexivity|].
      exists [OEnqueue (CanMessage m)]. repeat split. repeat constructor.
  - simpl in Hs. destruct fuel as [|fuel]; [lia|].
    rewrite drain_loop_message.
    rewrite (next_event_from_bus_cons _ (RecvMsg a) (map RecvMsg ms ++ rest))
      by exact Hs.
    simpl event_of_recv. cbv iota beta.
    match goal with |- context [drain_loop fuel _ ?v] => set (w1 := v) end.
    destruct (IH a w1 fuel rest) as (w' & tr & Hrun & Htr & Hsel & Hscr & Hcase);
      [reflexivity | exact Hrest | rewrite Hs in Hfuel; simpl in *; lia |].
    exists w', (OEnqueue (CanMessage m) :: OBusRecv 0%Q (RecvMsg a) :: tr).
    split; [exact Hrun|].
    split; [rewrite Htr; simpl; rewrite <- !app_assoc; reflexivity|].
    split; [exact Hsel|]. split; [exact Hscr|].
    destruct rest as [|[m'| |d] post]; [| destruct Hrest | |].
    + destruct Hcase as (Hall & Henq & Hout & Hst).
      repeat split.
      * repeat constructor. exact Hall.
      * simpl. rewrite Henq. reflexivity.
      * rewrite Hout. simpl. rewrite <- app_assoc. reflexivity.
      * exact Hst.
    + destruct Hcase as (Hall & Henq & Hout & Hst).
      repeat split.
      * repeat constructor. exact Hall.
      * simpl. rewrite Henq. reflexivity.
      * rewrite Hout. simpl. rewrite <- app_assoc. reflexivity.
      * exact Hst.
    + destruct Hcase as (tr1 & Htr1 & Hall & Hout & Hst).
      exists (OEnqueue (CanMessage m) :: OBusRecv 0%Q (RecvMsg a) :: tr1).
      repeat split.
      * rewrite Htr1. reflexivity.
      * repeat constructor. exact Hall.
      * rewrite Hout. simpl. rewrite <- !app_assoc. reflexivity.
      * exact Hst.
Qed.

Lemma send_iteration_unfold (w : world) :
  send_iteration w =
  match _next_event_from_bus (1#2)%Q w with
  | (Ret ev, w1) =>
      match select_writable w1 with
      | (Ret b, w2) =>
          match drain_loop (S (length (recv_script w2))) ev w2 with
          | (Ret _, w3) =>
              if conn_data_ready w3 && b then flush_to_client w3
              else (Ret tt, w3)
          | (Raise e, w3) => (Raise e, w3)
          | (Blocked, w3) => (Blocked, w3)
          end
      | (Raise e, w2) => (Raise e, w2)
      | (Blocked, w2) => (Blocked, w2)
      end
  | (Raise e, w1) => (Raise e, w1)
  | (Blocked, w1) => (Blocked, w1)
  end.
Proof.
  unfold send_iteration, mbind, M_bind, gets, mret, M_ret.
  destruct (_next_event_from_bus (1#2)%Q w) as [[ev|e|] w1]; try reflexivity.
  destruct (select_writable w1) as [[b|e|] w2]; try reflexivity.
  destruct (drain_loop (S (length (recv_script w2))) ev w2) as [[[]|e|] w3];
    try reflexivity.
  unfold conn_data_ready. destruct (has_data (outbuf w3) && b); reflexivity.
Qed.

Lemma select_writable_spec (w : world) :
  exists w',
    select_writable w = (Ret (hd false (select_script w)), w') /\
    trace w' = trace w ++ [OSelect (hd false (select_script w))] /\
    select_script w' = tail (select_script w) /\
    recv_script w' = recv_script w /\
    outbuf w' = outbuf w /\
    stop_event w' = stop_event w.
Proof.
  unfold select_writable. destruct (select_script w) as [|b rest] eqn:Hs;
    eexists; (split; [reflexivity|]); simpl; repeat split; assumption.
Qed.

(** The end of a pass: everything queued goes out in one write when the
    socket was found writable, and stays queued when not. *)
Lemma flush_step (w : world) (b : bool) :
  exists w',
    (if conn_data_ready w && b then flush_to_client w else (Ret tt, w))
      = (Ret tt, w') /\
    trace w' = trace w ++ (if has_data (outbuf w) && b
                           then [OSendall (outbuf w)] else []) /\
    outbuf w' = (if has_data (outbuf w) && b then [] else outbuf w) /\
    recv_script w' = recv_script w /\
    select_script w' = select_script w /\
    stop_event w' = stop_event w.
Proof.
  unfold conn_data_ready.
  destruct (has_data (outbuf w) && b).
  - eexists. split; [reflexivity|]. simpl. repeat split.
  - exists w. rewrite app_nil_r. repeat split.
Qed.

Lemma has_data_snoc (buf : list event) (ev : event) :
  has_data (buf ++ [ev]) = true.
Proof. destruct buf; reflexivity. Qed.

Lemma drain_op_calm (tr : list op) :
  Forall (fun o => drain_op o = true) tr -> Forall (fun o => calm o = true) tr.
Proof.
  intros Hall. eapply Forall_impl; [exact Hall|]. intros o Ho. simpl in Ho.
  destruct o as [| |t r| | | | | | |ev]; try discriminate Ho; try reflexivity.
  - destruct r; try reflexivity.
    destruct t as [[|p|p] [q|q|]]; discriminate Ho.
  - destruct ev; try discriminate Ho; reflexivity.
Qed.

Lemma last_select_app_some (a b : list op) (x : bool) :
  last_select b = Some x -> last_select (a ++ b) = Some x.
Proof. intros Hb. induction a as [|o a IH]; simpl; [exact Hb|]. rewrite IH. reflexivity. Qed.

Lemma last_select_drain (tr rest : list op) :
  Forall (fun o => drain_op o = true) tr ->
  last_select (tr ++ rest) = last_select rest.
Proof.
  induction 1 as [|o tr Ho _ IH]; simpl; [reflexivity|].
  rewrite IH. destruct (last_select rest); [reflexivity|].
  destruct o; try reflexivity. discriminate Ho.
Qed.

(** The first poll of a pass, on a bus that does not fail now. *)
Lemma first_poll_healthy (w : world) (ms : list Message) (rest : list recv_result) :
  recv_script w = map RecvMsg ms ++ rest ->
  (rest = [] \/ exists post, rest = RecvNone :: post) ->
  exists w1,
    _next_event_from_bus (1#2)%Q w = (Ret (CanMessage <$> head ms), w1) /\
    trace w1 = trace w ++ [OBusRecv (1#2)%Q (from_option RecvMsg RecvNone (head ms))] /\
    recv_script w1 = match ms with [] => tail rest | _ :: ms' => map RecvMsg ms' ++ rest end /\
    select_script w1 = select_script w /\
    outbuf w1 = outbuf w /\
    stop_event w1 = stop_event w.
Proof.
  intros Hs Hrest. destruct ms as [|m ms]; simpl in *.
  - destruct Hrest as [-> | [post ->]].
    + rewrite next_event_from_bus_nil by exact Hs.
      eexists. split; [reflexivity|]. simpl. repeat split. exact Hs.
    + rewrite (next_event_from_bus_cons _ RecvNone post) by exact Hs.
      eexists. split; [reflexivity|]. simpl. repeat split.
  - rewrite (next_event_from_bus_cons _ (RecvMsg m) (map RecvMsg ms ++ rest))
      by exact Hs.
    eexists. split; [reflexivity|]. simpl. repeat split.
Qed.

(** One pass of the outer loop on a bus that has the frames [ms] ready and
    then nothing.  The pass polls once with the bounded wait, checks the
    socket, drains, and flushes. *)
Lemma send_iteration_healthy (w : world) (ms : list Message)
    (rest : list recv_result) :
  recv_script w = map RecvMsg ms ++ rest ->
  (rest = [] \/ exists post, rest = RecvNone :: post) ->
  let b := hd false (select_script w) in
  let batch := outbuf w ++ map CanMessage ms in
  exists w' r0 tr_drain,
    send_iteration w = (Ret tt, w') /\
    trace w' = trace w ++ OBusRecv (1#2)%Q r0 :: OSelect b :: tr_drain
                 ++ (if has_data batch && b then [OSendall batch] else []) /\
    not_error r0 = true /\
    Forall (fun o => drain_op o = true) tr_drain /\
    enqueued tr_drain = map CanMessage ms /\
    outbuf w' = (if has_data batch && b then [] else batch) /\
    recv_script w' = tail rest /\
    stop_event w' = stop_event w /\
    select_script w' = tail (select_script w).
Proof.
  intros Hs Hrest b batch. rewrite send_iteration_unfold.
  destruct (first_poll_healthy w ms rest Hs Hrest)
    as (w1 & -> & Htr1 & Hs1 & Hsel1 & Hout1 & Hst1).
  destruct (select_writable_spec w1) as (w2 & -> & Htr2 & Hsel2 & Hs2 & Hout2 & Hst2).
  rewrite Hsel1 in *. fold b in Htr2 |- *.
  assert (Hdrain : exists w3 tr,
            drain_loop (S (length (recv_script w2))) (CanMessage <$> head ms) w2
              = (Ret tt, w3) /\
            trace w3 = trace w2 ++ tr /\
            Forall (fun o => drain_op o = true) tr /\
            enqueued tr = map CanMessage ms /\
            outbuf w3 = batch /\
            recv_script w3 = tail rest /\
            stop_event w3 = stop_event w /\
            select_script w3 = tail (select_script w)).
  { destruct ms as [|m ms]; simpl.
    - exists w2, []. rewrite app_nil_r. unfold batch. simpl. rewrite app_nil_r.
      repeat split; try congruence. constructor.
    - destruct (drain_loop_spec ms m w2 (S (length (recv_script w2))) rest)
        as (w3 & tr & Hrun & Htr3 & Hsel3 & Hs3 & Hcase);
        [congruence | destruct Hrest as [-> | [post ->]]; exact I | lia |].
      exists w3, tr. simpl in Hrun. rewrite Hrun.
      assert (Hc : Forall (fun o => drain_op o = true) tr /\
                   enqueued tr = map CanMessage (m :: ms) /\
                   outbuf w3 = outbuf w2 ++ map CanMessage (m :: ms) /\
                   stop_event w3 = stop_event w2)
        by (destruct Hrest as [-> | [post ->]]; exact Hcase).
      destruct Hc as (Hall & Henq & Hout3 & Hst3). unfold batch.
      repeat split; try assumption; congruence. }
  destruct Hdrain as (w3 & tr & -> & Htr3 & Hall & Henq & Hout3 & Hs3 & Hst3 & Hsel3).
  destruct (flush_step w3 b) as (w4 & -> & Htr4 & Hout4 & Hs4 & Hsel4 & Hst4).
  exists w4, (from_option RecvMsg RecvNone (head ms)), tr.
  split; [reflexivity|]. rewrite Hout3 in *.
  split; [rewrite Htr4, Htr3, Htr2, Htr1, <- !app_assoc; reflexivity|].
  split; [destruct ms; reflexivity|].
  repeat split; try assumption; congruence.
Qed.




Lemma first_poll_cons (t : Q) (r : recv_result) (rest : list recv_result)
    (w : world) :
  recv_script w = r :: rest ->
  exists w1,
    _next_event_from_bus t w = (Ret (event_of_recv r), w1) /\
    trace w1 = trace w ++ [OBusRecv t r] /\
    recv_script w1 = rest /\
    select_script w1 = select_script w /\
    outbuf w1 = outbuf w.
Proof.
  intros Hs. rewrite (next_event_from_bus_cons t r rest w Hs).
  eexists. split; [reflexivity|]. simpl. repeat split.
Qed.

Lemma drain_exception_spec (fuel : nat) (e : exn) (w : world) :
  exists w',
    drain_loop fuel (Some (RemoteException e)) w = (Ret tt, w') /\
    trace w' = trace w ++ [OEnqueue (RemoteException e)] /\
    outbuf w' = outbuf w ++ [RemoteException e] /\
    stop_event w' = true /\
    recv_script w' = recv_script w /\
    select_script w' = select_script w.
Proof.
  rewrite drain_loop_exception. eexists. split; [reflexivity|].
  simpl. repeat split.
Qed.

(** The pass in which the bus fails, after the frames [ms]: the exception
    event is queued once, the flag is set, and no call to the adapter
    follows the failing poll.  The exception is written to the socket in
    this pass only if the socket was found writable. *)
Lemma send_iteration_error (w : world) (ms : list Message) (d : string)
    (post : list recv_result) :
  recv_script w = map RecvMsg ms ++ RecvError d :: post ->
  let b := hd false (select_script w) in
  let exc := RemoteException (CanError d) in
  exists w' tr1 t tr2,
    send_iteration w = (Ret tt, w') /\
    trace w' = trace w ++ tr1 ++ OBusRecv t (RecvError d) :: tr2 /\
    Forall (fun o => calm o = true) tr1 /\
    adapter_calls tr2 = [] /\
    List.filter is_exception_enqueue tr2 = [OEnqueue exc] /\
    last_select (tr1 ++ OBusRecv t (RecvError d) :: tr2) = Some b /\
    stop_event w' = true /\
    recv_script w' = post /\
    (if b then (exists X, delivered tr2 = X ++ [exc]) /\ outbuf w' = []
     else delivered tr2 = [] /\ exists X, outbuf w' = X ++ [exc]).
Proof.
  intros Hs b exc. subst exc. rewrite send_iteration_unfold.
  destruct ms as [|m ms]; simpl in Hs.
  - destruct (first_poll_cons (1#2)%Q _ _ w Hs)
      as (w1 & -> & Htr1 & Hs1 & Hsel1 & Hout1).
    simpl event_of_recv.
    destruct (select_writable_spec w1)
      as (w2 & -> & Htr2 & Hsel2 & Hs2 & Hout2 & Hst2).
    rewrite Hsel1 in *. fold b in Htr2 |- *.
    destruct (drain_exception_spec (S (length (recv_script w2))) (CanError d) w2)
      as (w3 & -> & Htr3 & Hout3 & Hst3 & Hs3 & Hsel3).
    destruct (flush_step w3 b) as (w4 & -> & Htr4 & Hout4 & Hs4 & Hsel4 & Hst4).
    rewrite Hout3, has_data_snoc in Htr4, Hout4. simpl andb in Htr4, Hout4.
    exists w4, [], (1#2)%Q,
      (OSelect b :: OEnqueue (RemoteException (CanError d)) ::
         (if b then [OSendall (outbuf w2 ++ [(RemoteException (CanError d))])] else [])).
    split; [reflexivity|].
    split; [rewrite Htr4, Htr3, Htr2, Htr1, <- !app_assoc; reflexivity|].
    split; [constructor|].
    split; [destruct b; reflexivity|].
    split; [destruct b; reflexivity|].
    split; [destruct b; reflexivity|].
    split; [congruence|]. split; [congruence|].
    destruct b.
    + split; [exists (outbuf w2); simpl; rewrite app_nil_r; reflexivity | exact Hout4].
    + split; [reflexivity | exists (outbuf w2); exact Hout4].
  - destruct (first_poll_cons (1#2)%Q _ _ w Hs)
      as (w1 & -> & Htr1 & Hs1 & Hsel1 & Hout1).
    simpl event_of_recv.
    destruct (select_writable_spec w1)
      as (w2 & -> & Htr2 & Hsel2 & Hs2 & Hout2 & Hst2).
    rewrite Hsel1 in *. fold b in Htr2 |- *.
    destruct (drain_loop_spec ms m w2 (S (length (recv_script w2)))
                (RecvError d :: post))
      as (w3 & tr & -> & Htr3 & Hsel3 & Hs3 & tr1 & Htr & Hall & Hout3 & Hst3);
      [congruence | exact I | lia |].
    destruct (flush_step w3 b) as (w4 & -> & Htr4 & Hout4 & Hs4 & Hsel4 & Hst4).
    assert (Hhd : has_data (outbuf w2 ++ map CanMessage (m :: ms) ++ [(RemoteException (CanError d))]) = true)
      by (rewrite app_assoc; apply has_data_snoc).
    rewrite Hout3, Hhd in Htr4, Hout4. simpl andb in Htr4, Hout4.
    set (buf := outbuf w2 ++ map CanMessage (m :: ms) ++ [(RemoteException (CanError d))]) in *.
    exists w4, (OBusRecv (1#2)%Q (RecvMsg m) :: OSelect b :: tr1), 0%Q,
      (OEnqueue (RemoteException (CanError d)) :: (if b then [OSendall buf] else [])).
    split; [reflexivity|].
    split; [rewrite Htr4, Htr3, Htr, Htr2, Htr1, <- !app_assoc; reflexivity|].
    split; [repeat constructor; apply drain_op_calm, Hall|].
    split; [destruct b; reflexivity|].
    split; [destruct b; reflexivity|].
    split.
    { change ((OBusRecv (1#2)%Q (RecvMsg m) :: OSelect b :: tr1) ++
              OBusRecv 0%Q (RecvError d) :: OEnqueue (RemoteException (CanError d)) ::
                (if b then [OSendall buf] else []))
        with (OBusRecv (1#2)%Q (RecvMsg m) :: OSelect b ::
                (tr1 ++ OBusRecv 0%Q (RecvError d) :: OEnqueue (RemoteException (CanError d)) ::
                   (if b then [OSendall buf] else []))).
      simpl. rewrite (last_select_drain tr1 _ Hall).
      destruct b; reflexivity. }
    split; [congruence|]. split; [simpl in Hs3; congruence|].
    destruct b.
    + split; [|exact Hout4].
      exists (outbuf w2 ++ map CanMessage (m :: ms)). unfold buf. simpl.
      rewrite app_nil_r, <- app_assoc. reflexivity.
    + split; [reflexivity|].
      exists (outbuf w2 ++ map CanMessage (m :: ms)). rewrite Hout4.
      unfold buf. rewrite <- app_assoc. reflexivity.
Qed.

Lemma send_to_client_step (fuel : nat) (w w' : world) :
  stop_event w = false ->
  send_iteration w = (Ret tt, w') ->
  _send_to_client (S fuel) w = _send_to_client fuel w'.
Proof. intros Hst Hit. simpl. rewrite Hst, Hit. reflexivity. Qed.

Lemma send_to_client_stop (fuel : nat) (w : world) :
  stop_event w = true ->
  _send_to_client (S fuel) w = Some (Ret tt, log OBusShutdown w).
Proof. intros Hst. simpl. rewrite Hst. reflexivity. Qed.

(** Answers without an error are a run of frames, followed by nothing or by
    a "no frame" and more. *)
Lemma split_frames (pre : list recv_result) :
  Forall (fun r => not_error r = true) pre ->
  (exists ms, pre = map RecvMsg ms) \/
  (exists ms pre', pre = map RecvMsg ms ++ RecvNone :: pre').
Proof.
  induction 1 as [|r pre Hr _ IH].
  - left. exists []. reflexivity.
  - destruct r as [m| |d]; [| |discriminate Hr].
    + destruct IH as [[ms ->] | (ms & pre' & ->)].
      * left. exists (m :: ms). reflexivity.
      * right. exists (m :: ms), pre'. reflexivity.
    + right. exists [], pre. reflexivity.
Qed.

(** The failing pass and the exit that follows it. *)
Lemma error_pass_then_exit (w : world) (ms : list Message) (d : string)
    (post : list recv_result) (fuel : nat) :
  stop_event w = false ->
  recv_script w = map RecvMsg ms ++ RecvError d :: post ->
  (2 <= fuel)%nat ->
  exists w', _send_to_client fuel w = Some (Ret tt, w') /\
             ended_by_bus_error w w' d post.
Proof.
  intros Hst Hs Hfuel.
  destruct (send_iteration_error w ms d post Hs)
    as (w1 & tr1 & t & tr2 & Hrun & Htr & Hcalm & Hcalls & Hexc & Hsel & Hst1 & Hs1 & Hdel).
  destruct fuel as [|[|fuel]]; [lia | lia |].
  rewrite (send_to_client_step _ w w1 Hst Hrun), (send_to_client_stop _ w1 Hst1).
  eexists. split; [reflexivity|].
  exists tr1, t, tr2, (hd false (select_script w)). simpl.
  split; [rewrite Htr, <- !app_assoc; reflexivity|].
  repeat split; assumption.
Qed.

Lemma healthy_pass_calm (r0 : recv_result) (b : bool) (tr : list op)
    (flush : bool) (batch : list event) :
  not_error r0 = true ->
  Forall (fun o => drain_op o = true) tr ->
  Forall (fun o => calm o = true)
    (OBusRecv (1#2)%Q r0 :: OSelect b :: tr
       ++ (if flush then [OSendall batch] else [])).
Proof.
  intros Hr Hall. constructor; [destruct r0; [reflexivity | reflexivity | discriminate Hr]|].
  constructor; [reflexivity|].
  apply Forall_app. split; [apply drain_op_calm, Hall|].
  destruct flush; repeat constructor.
Qed.

Lemma bus_error_run (n : nat) :
  forall (pre : list recv_result) (w : world) (d : string)
         (post : list recv_result) (fuel : nat),
  (length pre <= n)%nat ->
  Forall (fun r => not_error r = true) pre ->
  stop_event w = false ->
  recv_script w = pre ++ RecvError d :: post ->
  (length pre + 2 <= fuel)%nat ->
  exists w', _send_to_client fuel w = Some (Ret tt, w') /\
             ended_by_bus_error w w' d post.
Proof.
  induction n as [|n IH]; intros pre w d post fuel Hlen Hpre Hst Hs Hfuel.
  - destruct pre; [|simpl in Hlen; lia].
    apply (error_pass_then_exit w [] d post fuel Hst Hs). simpl in Hfuel. lia.
  - destruct (split_frames pre Hpre) as [[ms ->] | (ms & pre' & ->)].
    + apply (error_pass_then_exit w ms d post fuel Hst Hs). lia.
    + rewrite <- app_assoc in Hs. simpl in Hs.
      rewrite length_app in Hlen, Hfuel. simpl in Hlen, Hfuel.
      destruct (send_iteration_healthy w ms (RecvNone :: pre' ++ RecvError d :: post) Hs)
        as (w1 & r0 & tr & Hrun & Htr & Hr0 & Hall & _ & _ & Hs1 & Hst1 & _);
        [right; eexists; reflexivity|].
      destruct fuel as [|fuel]; [lia|].
      rewrite (send_to_client_step _ w w1 Hst Hrun).
      destruct (IH pre' w1 d post fuel) as (w' & Hrun' & Hend);
        [lia | | congruence | exact Hs1 | lia |].
      { apply Forall_app in Hpre as [_ Hpre]. inversion Hpre; assumption. }
      exists w'. split; [exact Hrun'|].
      destruct Hend as (tr1 & t & tr2 & b & Htr' & Hcalm & Hcalls & Hexc & Hst' & Hs' & Hsel & Hdel).
      set (flush := if has_data (outbuf w ++ map CanMessage ms)
                       && hd false (select_script w)
                    then [OSendall (outbuf w ++ map CanMessage ms)] else [])
        in Htr.
      exists ((OBusRecv (1#2)%Q r0 :: OSelect (hd false (select_script w))
                 :: tr ++ flush) ++ tr1), t, tr2, b.
      split; [rewrite Htr', Htr, <- !app_assoc; simpl;
              rewrite <- !app_assoc; reflexivity|].
      split; [apply Forall_app; split; [|exact Hcalm];
              apply healthy_pass_calm; assumption|].
      split; [exact Hcalls|]. split; [exact Hexc|].
      split; [exact Hst'|]. split; [exact Hs'|].
      split; [rewrite <- app_assoc; apply last_select_app_some, Hsel|].
      exact Hdel.
Qed.

(** C6 as stated fails: the bus fails on the first poll while the client's
    socket is not writable.  The exception event is queued, the flag set and
    the bus shut down, but the loop ends without a write to the socket: the
    event is never delivered. *)
Lemma C6_counterexample :
  let exc := RemoteException (CanError "bus off") in
  let w := fresh_world [7%nat] 7%nat ∅ [] (fun _ => inl "mock0"%string) []
             [RecvError "bus off"] [false] in
  exists w',
    _send_to_client 2 w = Some (Ret tt, w') /\
    trace w' = [OBusRecv (1#2)%Q (RecvError "bus off"); OSelect false;
                OEnqueue exc; OBusShutdown] /\
    stop_event w' = true /\
    outbuf w' = [exc] /\
    ~ In exc (delivered (trace w')).
Proof.
  intros exc w. eexists. split; [vm_compute; reflexivity|].
  simpl. repeat split. intros [].
Qed.

(** C6 (amended): when a poll of the bus reports an error during the
    bus-to-client loop, the loop ends.  Up to the failing poll no exception
    event is queued and the bus is not shut down.  After it exactly one
    [RemoteException] event is put on the outbound buffer, the liveness flag
    is set, and the only further call to the adapter is the shutdown that
    ends the run: the bus is not polled again, so the rest of its answers
    is untouched.  The event is written to the socket, as the last event of
    the write, if the writability check of that pass found the socket
    ready; if not, nothing is written and the event stays in the buffer. *)
Theorem C6_bus_error_ends_session (w : world) (pre : list recv_result)
    (d : string) (post : list recv_result) (fuel : nat) :
  stop_event w = false ->
  recv_script w = pre ++ RecvError d :: post ->
  Forall (fun r => not_error r = true) pre ->
  (length pre + 2 <= fuel)%nat ->
  exists w' tr1 t tr2 b,
    _send_to_client fuel w = Some (Ret tt, w') /\
    trace w' = trace w ++ tr1 ++ OBusRecv t (RecvError d) :: tr2 ++ [OBusShutdown] /\
    Forall (fun o => calm o = true) tr1 /\
    adapter_calls tr2 = [] /\
    List.filter is_exception_enqueue tr2 = [OEnqueue (RemoteException (CanError d))] /\
    stop_event w' = true /\
    recv_script w' = post /\
    last_select (tr1 ++ OBusRecv t (RecvError d) :: tr2) = Some b /\
    (if b then (exists X, delivered tr2 = X ++ [RemoteException (CanError d)])
               /\ outbuf w' = []
     else delivered tr2 = []
          /\ exists X, outbuf w' = X ++ [RemoteException (CanError d)]).
Proof.
  intros Hst Hs Hpre Hfuel.
  destruct (bus_error_run (length pre) pre w d post fuel (le_n _) Hpre Hst Hs Hfuel)
    as (w' & Hrun & tr1 & t & tr2 & b & Hend).
  exists w', tr1, t, tr2, b. split; [exact Hrun | exact Hend].
Qed.

Lemma C6_witness :
  let m1 := mkMessage 256 [Byte.x01] in
  let w := fresh_world [7%nat] 7%nat ∅ [] (fun _ => inl "mock0"%string) []
             [RecvMsg m1; RecvNone; RecvMsg m1; RecvError "bus off"; RecvMsg m1]
             [true; true] in
  exists w' tr1 t tr2 b,
    _send_to_client 5 w = Some (Ret tt, w') /\
    trace w' = trace w ++ tr1 ++ OBusRecv t (RecvError "bus off") :: tr2 ++ [OBusShutdown] /\
    Forall (fun o => calm o = true) tr1 /\
    adapter_calls tr2 = [] /\
    List.filter is_exception_enqueue tr2
      = [OEnqueue (RemoteException (CanError "bus off"))] /\
    stop_event w' = true /\
    recv_script w' = [RecvMsg m1] /\
    last_select (tr1 ++ OBusRecv t (RecvError "bus off") :: tr2) = Some b /\
    (if b then (exists X, delivered tr2 = X ++ [RemoteException (CanError "bus off")])
               /\ outbuf w' = []
     else delivered tr2 = []
          /\ exists X, outbuf w' = X ++ [RemoteException (CanError "bus off")]).
Proof.
  intros m1 w.
  apply (C6_bus_error_ends_session w [RecvMsg m1; RecvNone; RecvMsg m1]
           "bus off"%string [RecvMsg m1] 5%nat).
  - reflexivity.
  - reflexivity.
  - repeat constructor.
  - simpl. lia.
Defined.

(** ** More on the client-to-bus loop *)

Lemma relay_frame_refl (w : world) : relay_frame w w.
Proof. repeat split. Qed.

Lemma relay_frame_trans (w w1 w2 : world) :
  relay_frame w w1 -> relay_frame w1 w2 -> relay_frame w w2.
Proof.
  unfold relay_frame. intros (A1 & A2 & A3 & A4 & A5 & A6 & A7 & A8)
    (B1 & B2 & B3 & B4 & B5 & B6 & B7 & B8).
  repeat split; congruence.
Qed.

Lemma sent_frames_app (a b : list op) :
  sent_frames (a ++ b) = sent_frames a ++ sent_frames b.
Proof. apply flat_map_app. Qed.

Lemma frames_of_app (a b : list event) :
  frames_of (a ++ b) = frames_of a ++ frames_of b.
Proof. apply flat_map_app. Qed.

Lemma enqueued_app (a b : list op) :
  enqueued (a ++ b) = enqueued a ++ enqueued b.
Proof. apply flat_map_app. Qed.

Lemma delivered_app (a b : list op) :
  delivered (a ++ b) = delivered a ++ delivered b.
Proof. apply flat_map_app. Qed.

Lemma failures_app (a b : list (option string)) :
  failures (a ++ b) = (failures a + failures b)%nat.
Proof. unfold failures. rewrite List.filter_app, length_app. reflexivity. Qed.

Lemma relay_effect_nil (w : world) : relay_effect [] w w.
Proof.
  exists [], []. simpl. rewrite !app_nil_r.
  split; [reflexivity|]. split; [reflexivity|]. split; [constructor|].
  repeat split; reflexivity.
Qed.

Lemma relay_effect_app (c1 c2 : list event) (w w1 w2 : world) :
  relay_effect c1 w w1 -> relay_effect c2 w1 w2 ->
  relay_effect (c1 ++ c2) w w2.
Proof.
  intros (tr1 & u1 & Hin1 & Htr1 & Hop1 & Hs1 & Hout1 & Hsc1 & Hlen1 & Hf1)
         (tr2 & u2 & Hin2 & Htr2 & Hop2 & Hs2 & Hout2 & Hsc2 & Hlen2 & Hf2).
  exists (tr1 ++ tr2), (u1 ++ u2).
  split; [rewrite Hin1, Hin2, app_assoc; reflexivity|].
  split; [rewrite Htr2, Htr1, app_assoc; reflexivity|].
  split; [apply Forall_app; split; assumption|].
  split; [rewrite sent_frames_app, frames_of_app, Hs1, Hs2; reflexivity|].
  split; [rewrite Hout2, Hout1, enqueued_app, app_assoc; reflexivity|].
  split; [rewrite Hsc1, Hsc2, app_assoc; reflexivity|].
  split; [rewrite frames_of_app, !length_app; lia|].
  rewrite enqueued_app, length_app, failures_app. lia.
Qed.

(** What one dispatch does, whatever the event and however it ends. *)
Lemma receive_dispatch_effect (ev : event) (w w' : world) (r : result loop_ctl) :
  receive_dispatch ev w = (r, w') ->
  relay_frame w w' /\
  inbox w' = inbox w /\
  exists tr used,
    trace w' = trace w ++ tr /\
    Forall (fun o => relay_op o = true) tr /\
    sent_frames tr = frames_of [ev] /\
    outbuf w' = outbuf w ++ enqueued tr /\
    send_script w = used ++ send_script w' /\
    (length used <= length (frames_of [ev]))%nat /\
    length (enqueued tr) = failures used.
Proof.
  assert (Hnone : forall v, relay_frame v v /\ inbox v = inbox v /\
            exists tr used,
              trace v = trace v ++ tr /\
              Forall (fun o => relay_op o = true) tr /\
              sent_frames tr = [] /\
              outbuf v = outbuf v ++ enqueued tr /\
              send_script v = used ++ send_script v /\
              (length used <= 0)%nat /\
              length (enqueued tr) = failures used).
  { intros v. split; [apply relay_frame_refl|]. split; [reflexivity|].
    exists [], []. simpl. rewrite !app_nil_r.
    split; [reflexivity|]. split; [constructor|]. repeat split; reflexivity. }
  assert (Hone : forall v o, relay_op o = true -> sent_frames [o] = [] ->
            enqueued [o] = [] ->
            exists tr used,
              trace v ++ [o] = trace v ++ tr /\
              Forall (fun o => relay_op o = true) tr /\
              sent_frames tr = [] /\
              outbuf v = outbuf v ++ enqueued tr /\
              send_script v = used ++ send_script v /\
              (length used <= 0)%nat /\
              length (enqueued tr) = failures used).
  { intros v o Ho Hs He. exists [o], []. rewrite He, Hs, app_nil_r. simpl.
    split; [reflexivity|]. split; [repeat constructor; exact Ho|].
    repeat split; reflexivity. }
  intros Hd. destruct ev; simpl in Hd;
    try (injection Hd as <- <-; apply Hnone).
  - unfold mbind, M_bind, send_msg, bus_send in Hd.
    destruct (send_script w) as [|[desc|] srest] eqn:Hscr; simpl in Hd;
      injection Hd as <- <-; (split; [repeat split|]); (split; [reflexivity|]).
    + exists [OBusSend msg], []. simpl. rewrite app_nil_r.
      split; [reflexivity|]. split; [repeat constructor|].
      repeat split; simpl; try reflexivity; try lia; congruence.
    + exists [OBusSend msg; OEnqueue TransmitFail], [Some desc]. simpl.
      rewrite <- app_assoc.
      split; [reflexivity|]. split; [repeat constructor|].
      repeat split; simpl; try reflexivity; try lia; congruence.
    + exists [OBusSend msg], [None]. simpl. rewrite app_nil_r.
      split; [reflexivity|]. split; [repeat constructor|].
      repeat split; simpl; try reflexivity; try lia; congruence.
  - msimpl_in Hd. destruct (send_tasks w !! arbitration_id msg) as [h|];
      injection Hd as <- <-; (split; [repeat split|]); (split; [reflexivity|]);
      simpl; apply (Hone w); reflexivity.
  - msimpl_in Hd. destruct (send_tasks w !! arb_id) as [h|];
      injection Hd as <- <-.
    + split; [repeat split|]. split; [reflexivity|].
      simpl. apply (Hone w); reflexivity.
    + apply Hnone.
Qed.

Lemma receive_iteration_effect (w w' : world) (r : result (option unit)) :
  receive_iteration w = (r, w') ->
  relay_frame w w' /\ exists consumed, relay_effect consumed w w'.
Proof.
  intros Hit. unfold receive_iteration, _next_event in Hit. msimpl_in Hit.
  destruct (stop_event w) eqn:Hst.
  { injection Hit as <- <-. split; [apply relay_frame_refl|].
    exists []. apply relay_effect_nil. }
  destruct (inbox w) as [|ev rest] eqn:Hin.
  { injection Hit as <- <-. split; [apply relay_frame_refl|].
    exists []. apply relay_effect_nil. }
  destruct (receive_dispatch ev (set_inbox rest w)) as [rd wd] eqn:Hd.
  apply receive_dispatch_effect in Hd.
  destruct Hd as (Hfr & Hin' & tr & used & Htr & Hop & Hs & Hout & Hscr & Hlen & Hf).
  simpl in Hin', Htr, Hout, Hscr.
  assert (Hwd : relay_frame w wd /\ exists consumed, relay_effect consumed w wd).
  { split.
    - apply (relay_frame_trans w (set_inbox rest w) wd); [repeat split|exact Hfr].
    - exists [ev], tr, used. rewrite Hin, Hin'. repeat split; assumption. }
  destruct rd as [[]|e|]; injection Hit as <- <-; exact Hwd.
Qed.

Lemma relay_steps_effect (w w' : world) :
  relay_steps w w' ->
  relay_frame w w' /\ exists consumed, relay_effect consumed w w'.
Proof.
  induction 1 as [w|w r w1 w2 Hit _ IH].
  - split; [apply relay_frame_refl|]. exists []. apply relay_effect_nil.
  - apply receive_iteration_effect in Hit.
    destruct Hit as (Hf1 & c1 & He1). destruct IH as (Hf2 & c2 & He2).
    split; [exact (relay_frame_trans _ _ _ Hf1 Hf2)|].
    exists (c1 ++ c2). exact (relay_effect_app _ _ _ _ _ He1 He2).
Qed.

(** The loop is a run of passes. *)
Lemma receive_loop_steps (fuel : nat) :
  forall (w w' : world) (r : result unit),
  receive_loop fuel w = (r, w') -> relay_steps w w'.
Proof.
  induction fuel as [|fuel IH]; intros w w' r Hl.
  - injection Hl as <- <-. apply relay_here.
  - rewrite receive_loop_unfold in Hl.
    destruct (receive_iteration w) as [ri wi] eqn:Hit.
    destruct ri as [[[]|]|e|].
    + apply (relay_next w _ wi w' Hit). exact (IH _ _ _ Hl).
    + injection Hl as <- <-. apply (relay_next w _ wi wi Hit), relay_here.
    + injection Hl as <- <-. apply (relay_next w _ wi wi Hit), relay_here.
    + injection Hl as <- <-. apply (relay_next w _ wi wi Hit), relay_here.
Qed.

(** X1: whatever the client sends, and however the loop ends (normally, by
    the [KeyError] of a stop, or waiting for more input), the client-to-bus
    loop leaves the stop event, the server's client list, the bus handle,
    the configuration and the answers still due to the send thread as they
    were.  In particular it never sets [stop_event]: the send thread is
    told to stop by [finish] only. *)
Theorem X1_relay_loop_frame (w : world) :
  let w' := (_receive_from_client w).2 in
  stop_event w' = stop_event w /\
  clients w' = clients w /\
  self w' = self w /\
  bus w' = bus w /\
  config w' = config w /\
  send_thread_started w' = send_thread_started w /\
  recv_script w' = recv_script w /\
  select_script w' = select_script w.
Proof.
  simpl. destruct (_receive_from_client w) as [r w'] eqn:Hrun.
  apply receive_loop_steps, relay_steps_effect in Hrun.
  exact (proj1 Hrun).
Qed.

(** X2: for every stream of events, the frames the client-to-bus loop hands
    to [bus.send] are exactly the frames of the [CanMessage] events it has
    read, in the order they were read; it makes no other kind of call than
    sends and periodic-task calls (no socket write, no poll, no shutdown);
    and what it queues for the client is one [TransmitFail] per failed send
    and nothing else. *)
Theorem X2_relay_loop_forwards_frames (w : world) :
  let w' := (_receive_from_client w).2 in
  exists consumed tr used,
    inbox w = consumed ++ inbox w' /\
    trace w' = trace w ++ tr /\
    Forall (fun o => relay_op o = true) tr /\
    sent_frames tr = frames_of consumed /\
    outbuf w' = outbuf w ++ enqueued tr /\
    send_script w = used ++ send_script w' /\
    (length used <= length (frames_of consumed))%nat /\
    length (enqueued tr) = failures used.
Proof.
  simpl. destruct (_receive_from_client w) as [r w'] eqn:Hrun.
  apply receive_loop_steps, relay_steps_effect in Hrun.
  destruct Hrun as (_ & consumed & tr & used & Heff).
  exists consumed, tr, used. exact Heff.
Qed.

(** X4: a stopped task is not started again.  After a
    [PeriodicMessageStop] for a registered ID, a [PeriodicMessageStart] for
    the same ID finds the ID still registered: it makes no [send_periodic]
    call, it only calls [modify_data] on the stopped task.  The task then
    carries the new frame but is still stopped, and the period and duration
    of the start event are not used. *)
Theorem X4_start_after_stop (w : world) (arb_id : Z) (h : nat) (t : task)
    (msg : Message) (period : Q) (duration : option Q) :
  send_tasks w !! arb_id = Some h ->
  tasks w !! h = Some t ->
  arbitration_id msg = arb_id ->
  exists w1 w2,
    receive_dispatch (PeriodicMessageStop arb_id) w = (Ret Continue, w1) /\
    receive_dispatch (PeriodicMessageStart msg period duration) w1
      = (Ret Continue, w2) /\
    trace w2 = trace w ++ [OTaskStop h; OTaskModify h msg] /\
    tasks w2 !! h = Some (mkTask msg (task_period t) (task_duration t) true) /\
    length (tasks w2) = length (tasks w) /\
    send_tasks w2 = send_tasks w.
Proof.
  intros Hreg Ht Hid.
  set (w1 := log (OTaskStop h) (set_tasks (alter task_set_stopped h) w)).
  set (w2 := log (OTaskModify h msg) (set_tasks (alter (task_set_msg msg) h) w1)).
  exists w1, w2.
  split; [simpl; msimpl; rewrite Hreg; reflexivity|].
  split; [simpl; msimpl; rewrite Hid, Hreg; reflexivity|].
  simpl. rewrite <- app_assoc. split; [reflexivity|].
  split; [|split; [rewrite !length_alter; reflexivity | reflexivity]].
  rewrite !list_lookup_alter, !decide_True by reflexivity.
  rewrite Ht. reflexivity.
Qed.

Lemma X4_witness :
  let t := mkTask (mkMessage 256 [Byte.x01]) 1%Q None false in
  let msg := mkMessage 256 [Byte.x02] in
  let w := set_send_tasks (fun _ => {[ 256 := 0%nat ]})
             (set_tasks (fun _ => [t])
                (fresh_world [7%nat] 7%nat ∅ [] (fun _ => inl "mock0"%string)
                   [] [] [])) in
  exists w1 w2,
    receive_dispatch (PeriodicMessageStop 256) w = (Ret Continue, w1) /\
    receive_dispatch (PeriodicMessageStart msg (1#10)%Q (Some 3%Q)) w1
      = (Ret Continue, w2) /\
    trace w2 = trace w ++ [OTaskStop 0; OTaskModify 0 msg] /\
    tasks w2 !! 0%nat = Some (mkTask msg 1%Q None true) /\
    length (tasks w2) = length (tasks w) /\
    send_tasks w2 = send_tasks w.
Proof.
  intros t msg w.
  apply (X4_start_after_stop w 256 0%nat t msg (1#10)%Q (Some 3%Q)); reflexivity.
Defined.

(** ** More on the handshake *)

(** [handle] once a request of the right version and a filter
    configuration have been read. *)
Lemma handle_after_handshake (pv : Z) (w : world) (bitrate : Z)
    (can_filters : list (Z * Z)) (rest : list event) :
  inbox w = BusRequest pv bitrate :: FilterConfig can_filters :: rest ->
  handle pv w =
    (open_bus ;; modify (set_send_thread_started true) ;; _receive_from_client)
      (set_config (fun c => negotiated_config c bitrate can_filters)
         (set_inbox rest w)).
Proof.
  intros Hin. unfold handle.
  remember _receive_from_client as relay eqn:Hrelay.
  remember open_bus as opener eqn:Hopener.
  unfold _next_event. msimpl. rewrite Hin.
  rewrite decide_False by (intros Hne; apply Hne; reflexivity).
  reflexivity.
Qed.

Lemma handle_open_failure (pv : Z) (w : world) (bitrate : Z)
    (can_filters : list (Z * Z)) (rest : list event) (e : exn) :
  inbox w = BusRequest pv bitrate :: FilterConfig can_filters :: rest ->
  bus_open w (negotiated_config (config w) bitrate can_filters) = inr e ->
  exists w',
    handle pv w = (Raise e, w') /\
    trace w' = trace w ++
      [OBusOpen (negotiated_config (config w) bitrate can_filters);
       OEnqueue (RemoteException e);
       OSendall (outbuf w ++ [RemoteException e])] /\
    outbuf w' = [] /\
    bus w' = bus w /\
    send_thread_started w' = send_thread_started w /\
    clients w' = clients w /\
    inbox w' = rest.
Proof.
  intros Hin Hopen. rewrite (handle_after_handshake pv w bitrate can_filters rest Hin).
  remember _receive_from_client as relay eqn:Hrelay.
  unfold open_bus, conn_send_event, flush_to_client, conn_next_data,
    request_sendall. msimpl.
  rewrite Hopen. eexists. split; [reflexivity|]. simpl.
  rewrite <- !app_assoc. repeat split.
Qed.

Lemma handle_open_success (pv : Z) (w : world) (bitrate : Z)
    (can_filters : list (Z * Z)) (rest : list event) (info : string) :
  inbox w = BusRequest pv bitrate :: FilterConfig can_filters :: rest ->
  bus_open w (negotiated_config (config w) bitrate can_filters) = inl info ->
  exists w2,
    handle pv w = _receive_from_client w2 /\
    trace w2 = trace w ++
      [OBusOpen (negotiated_config (config w) bitrate can_filters);
       OEnqueue (BusResponse info);
       OSendall (outbuf w ++ [BusResponse info])] /\
    outbuf w2 = [] /\
    bus w2 = Some info /\
    send_thread_started w2 = true /\
    clients w2 = clients w ++ [self w] /\
    inbox w2 = rest /\
    config w2 = negotiated_config (config w) bitrate can_filters /\
    stop_event w2 = stop_event w /\
    send_tasks w2 = send_tasks w.
Proof.
  intros Hin Hopen. rewrite (handle_after_handshake pv w bitrate can_filters rest Hin).
  remember _receive_from_client as relay eqn:Hrelay.
  unfold open_bus, conn_send_event, flush_to_client, conn_next_data,
    request_sendall. msimpl.
  rewrite Hopen. eexists. split; [reflexivity|]. simpl.
  rewrite <- !app_assoc. repeat split.
Qed.

(** X5: when the bus cannot be opened, the client is told and the session
    ends.  After a request of the right version and a filter configuration,
    a failing [can.interface.Bus] call makes [handle] queue one
    [RemoteException] with the failure, write it to the socket, and raise
    that same failure.  The send thread is not started, nothing more is read
    from the client, no bus is held and the session is not appended to the
    client list a second time. *)
Theorem X5_bus_open_failure (pv : Z) (w : world) (bitrate : Z)
    (can_filters : list (Z * Z)) (rest : list event) (e : exn) :
  inbox w = BusRequest pv bitrate :: FilterConfig can_filters :: rest ->
  bus_open w (negotiated_config (config w) bitrate can_filters) = inr e ->
  exists w',
    handle pv w = (Raise e, w') /\
    trace w' = trace w ++
      [OBusOpen (negotiated_config (config w) bitrate can_filters);
       OEnqueue (RemoteException e);
       OSendall (outbuf w ++ [RemoteException e])] /\
    outbuf w' = [] /\
    bus w' = bus w /\
    send_thread_started w' = send_thread_started w /\
    clients w' = clients w /\
    inbox w' = rest.
Proof. apply handle_open_failure. Qed.

Lemma X5_witness :
  let w := fresh_world [7%nat] 7%nat {[ "channel"%string := CfgStr "can0" ]}
             [BusRequest 1 500000; FilterConfig []; CanMessage (mkMessage 1 [])]
             (fun _ => inr (BusOpenException "no such interface")) [] [] [] in
  exists w',
    handle 1 w = (Raise (BusOpenException "no such interface"), w') /\
    trace w' = trace w ++
      [OBusOpen (negotiated_config (config w) 500000 []);
       OEnqueue (RemoteException (BusOpenException "no such interface"));
       OSendall (outbuf w ++ [RemoteException (BusOpenException "no such interface")])] /\
    outbuf w' = [] /\
    bus w' = bus w /\
    send_thread_started w' = send_thread_started w /\
    clients w' = clients w /\
    inbox w' = [CanMessage (mkMessage 1 [])].
Proof.
  intros w.
  apply (X5_bus_open_failure 1 w 500000 [] [CanMessage (mkMessage 1 [])]);
    reflexivity.
Defined.

(** X6: when the bus opens, the client gets the [BusResponse] before
    anything is relayed.  After a request of the right version and a filter
    configuration, a successful [can.interface.Bus] call makes [handle] keep
    the bus, queue one [BusResponse] with the bus's channel info, append the
    session to the client list, write the response to the socket and mark
    the send thread started; what [handle] does from there on is the
    client-to-bus loop on the rest of the input. *)
Theorem X6_bus_open_success (pv : Z) (w : world) (bitrate : Z)
    (can_filters : list (Z * Z)) (rest : list event) (info : string) :
  inbox w = BusRequest pv bitrate :: FilterConfig can_filters :: rest ->
  bus_open w (negotiated_config (config w) bitrate can_filters) = inl info ->
  exists w2,
    handle pv w = _receive_from_client w2 /\
    trace w2 = trace w ++
      [OBusOpen (negotiated_config (config w) bitrate can_filters);
       OEnqueue (BusResponse info);
       OSendall (outbuf w ++ [BusResponse info])] /\
    outbuf w2 = [] /\
    bus w2 = Some info /\
    send_thread_started w2 = true /\
    clients w2 = clients w ++ [self w] /\
    inbox w2 = rest /\
    config w2 = negotiated_config (config w) bitrate can_filters /\
    stop_event w2 = stop_event w /\
    send_tasks w2 = send_tasks w.
Proof. apply handle_open_success. Qed.

Lemma X6_witness :
  let w := fresh_world [7%nat] 7%nat {[ "channel"%string := CfgStr "can0" ]}
             [BusRequest 1 500000; FilterConfig []; CanMessage (mkMessage 1 [])]
             (fun _ => inl "mock0"%string) [] [] [] in
  exists w2,
    handle 1 w = _receive_from_client w2 /\
    trace w2 = trace w ++
      [OBusOpen (negotiated_config (config w) 500000 []);
       OEnqueue (BusResponse "mock0");
       OSendall (outbuf w ++ [BusResponse "mock0"])] /\
    outbuf w2 = [] /\
    bus w2 = Some "mock0"%string /\
    send_thread_started w2 = true /\
    clients w2 = clients w ++ [self w] /\
    inbox w2 = [CanMessage (mkMessage 1 [])] /\
    config w2 = negotiated_config (config w) 500000 [] /\
    stop_event w2 = stop_event w /\
    send_tasks w2 = send_tasks w.
Proof.
  intros w.
  apply (X6_bus_open_success 1 w 500000 [] [CanMessage (mkMessage 1 [])] "mock0"%string);
    reflexivity.
Defined.

Lemma relay_op_not_open (tr : list op) :
  Forall (fun o => relay_op o = true) tr -> List.filter is_open tr = [].
Proof.
  induction 1 as [|o tr Ho _ IH]; [reflexivity|]. simpl. rewrite IH.
  destruct o; try reflexivity. discriminate Ho.
Qed.

Lemma negotiated_config_lookup (c : gmap string cfg_value) (bitrate : Z)
    (can_filters : list (Z * Z)) :
  negotiated_config c bitrate can_filters !! "can_filters"
    = Some (CfgFilters can_filters) /\
  negotiated_config c bitrate can_filters !! "bitrate"
    = Some (default (CfgInt bitrate) (c !! "bitrate")) /\
  (forall k : string, k <> "bitrate"%string -> k <> "can_filters"%string ->
     negotiated_config c bitrate can_filters !! k = c !! k).
Proof.
  unfold negotiated_config, setdefault. split; [apply lookup_insert_eq|]. split.
  - rewrite lookup_insert_ne by discriminate.
    destruct (c !! "bitrate") as [v|] eqn:Hb; simpl; [exact Hb|].
    apply lookup_insert_eq.
  - intros k Hk1 Hk2. rewrite lookup_insert_ne by congruence.
    destruct (c !! "bitrate") as [v|] eqn:Hb; [reflexivity|].
    rewrite lookup_insert_ne by congruence. reflexivity.
Qed.

(** X7: the bus is opened once, with the server's configuration completed
    by the client.  After a request of the right version and a filter
    configuration, the first call [handle] makes is the one
    [can.interface.Bus] call of the session, whether it succeeds or not.
    Its configuration has the client's filters under "can_filters" (replacing
    any the server had), under "bitrate" the server's value if the server
    had one and the client's otherwise, and every other key as the server
    had it. *)
Theorem X7_bus_opened_once_with_merged_config (pv : Z) (w : world)
    (bitrate : Z) (can_filters : list (Z * Z)) (rest : list event) :
  inbox w = BusRequest pv bitrate :: FilterConfig can_filters :: rest ->
  exists cfg tr,
    trace (handle pv w).2 = trace w ++ OBusOpen cfg :: tr /\
    List.filter is_open tr = [] /\
    cfg !! "can_filters" = Some (CfgFilters can_filters) /\
    cfg !! "bitrate" = Some (default (CfgInt bitrate) (config w !! "bitrate")) /\
    (forall k : string, k <> "bitrate"%string -> k <> "can_filters"%string ->
       cfg !! k = config w !! k).
Proof.
  intros Hin.
  exists (negotiated_config (config w) bitrate can_filters).
  assert (Htr : exists tr,
            trace (handle pv w).2 = trace w
              ++ OBusOpen (negotiated_config (config w) bitrate can_filters) :: tr /\
            List.filter is_open tr = []).
  { destruct (bus_open w (negotiated_config (config w) bitrate can_filters))
      as [info|e] eqn:Hopen.
    - destruct (handle_open_success pv w bitrate can_filters rest info Hin Hopen)
        as (w2 & -> & Htr2 & _).
      destruct (_receive_from_client w2) as [r w'] eqn:Hrun.
      apply receive_loop_steps, relay_steps_effect in Hrun.
      destruct Hrun as (_ & consumed & tr & used & _ & Htr & Hop & _).
      exists ([OEnqueue (BusResponse info);
               OSendall (outbuf w ++ [BusResponse info])] ++ tr).
      split; [cbn [snd]; rewrite Htr, Htr2, <- !app_assoc; reflexivity|].
      cbn [List.filter app is_open]. apply relay_op_not_open, Hop.
    - destruct (handle_open_failure pv w bitrate can_filters rest e Hin Hopen)
        as (w' & -> & Htr & _).
      exists [OEnqueue (RemoteException e);
              OSendall (outbuf w ++ [RemoteException e])].
      split; [cbn [snd]; exact Htr | reflexivity]. }
  destruct Htr as (tr & Htr & Hopen). exists tr.
  split; [exact Htr|]. split; [exact Hopen|].
  apply negotiated_config_lookup.
Qed.

Lemma X7_witness :
  let w := fresh_world [7%nat] 7%nat {[ "bitrate"%string := CfgInt 250000 ]}
             [BusRequest 1 500000; FilterConfig [(256, 2047)]; ConnectionClosed]
             (fun _ => inl "mock0"%string) [] [] [] in
  exists cfg tr,
    trace (handle 1 w).2 = trace w ++ OBusOpen cfg :: tr /\
    List.filter is_open tr = [] /\
    cfg !! "can_filters" = Some (CfgFilters [(256, 2047)]) /\
    cfg !! "bitrate" = Some (default (CfgInt 500000) (config w !! "bitrate")) /\
    (forall k : string, k <> "bitrate"%string -> k <> "can_filters"%string ->
       cfg !! k = config w !! k).
Proof.
  intros w.
  apply (X7_bus_opened_once_with_merged_config 1 w 500000 [(256, 2047)]
           [ConnectionClosed]).
  reflexivity.
Defined.



(** ** More on the bus-to-client loop *)

Lemma poll_or_enqueue_facts (tr : list op) :
  Forall (fun o => poll_or_enqueue o = true) tr ->
  delivered tr = [] /\
  List.filter is_shutdown tr = [] /\
  List.filter is_empty_write tr = [] /\
  adapter_calls tr = List.filter is_poll tr.
Proof.
  induction 1 as [|o tr Ho _ (IH1 & IH2 & IH3 & IH4)]; [repeat split|].
  unfold adapter_calls in *.
  destruct o; try discriminate Ho; simpl; rewrite ?IH1, ?IH2, ?IH3, ?IH4;
    repeat split.
Qed.

Lemma polled_events_cons (r : recv_result) (rs : list recv_result) :
  polled_events (r :: rs) = option_list (event_of_recv r) ++ polled_events rs.
Proof. unfold polled_events. simpl. destruct (event_of_recv r); reflexivity. Qed.

Lemma polled_events_app (a b : list recv_result) :
  polled_events (a ++ b) = polled_events a ++ polled_events b.
Proof.
  induction a as [|r a IH]; [reflexivity|].
  change ((r :: a) ++ b) with (r :: (a ++ b)).
  rewrite !polled_events_cons, IH, app_assoc. reflexivity.
Qed.

(** The inner loop on any answers of the bus: what it takes from the bus
    ends up on the outbound buffer, in order, behind the event it was
    entered with. *)
Lemma drain_loop_forward (fuel : nat) :
  forall (ev : option event) (w : world),
  (length (recv_script w) < fuel)%nat ->
  exists w' consumed tr,
    drain_loop fuel ev w = (Ret tt, w') /\
    recv_script w = consumed ++ recv_script w' /\
    trace w' = trace w ++ tr /\
    Forall (fun o => poll_or_enqueue o = true) tr /\
    outbuf w' = outbuf w ++ option_list ev ++ polled_events consumed /\
    select_script w' = select_script w.
Proof.
  induction fuel as [|fuel IH]; intros ev w Hfuel; [lia|].
  destruct ev as [e|].
  2:{ exists w, [], []. rewrite drain_loop_none. simpl. rewrite !app_nil_r.
      split; [reflexivity|]. split; [reflexivity|]. split; [reflexivity|].
      split; [constructor|]. split; reflexivity. }
  destruct (is_remote_exception e) eqn:Hexc.
  { destruct e; try discriminate Hexc.
    destruct (drain_exception_spec (S fuel) e w)
      as (w' & Hrun & Htr & Hout & _ & Hs & Hsel).
    exists w', [], [OEnqueue (RemoteException e)]. simpl.
    split; [exact Hrun|]. split; [congruence|]. split; [exact Htr|].
    split; [repeat constructor|]. split; assumption. }
  assert (Hstep : drain_loop (S fuel) (Some e) w =
            match _next_event_from_bus 0%Q
                    (log (OEnqueue e) (set_outbuf (fun b => b ++ [e]) w)) with
            | (Ret ev', w1) => drain_loop fuel ev' w1
            | (Raise x, w1) => (Raise x, w1)
            | (Blocked, w1) => (Blocked, w1)
            end).
  { simpl. unfold mbind, M_bind, conn_send_event, modify. rewrite Hexc.
    reflexivity. }
  rewrite Hstep. clear Hstep.
  destruct (recv_script w) as [|r rest] eqn:Hs.
  - rewrite next_event_from_bus_nil by exact Hs. rewrite drain_loop_none.
    eexists. exists [], [OEnqueue e; OBusRecv 0%Q RecvNone].
    split; [reflexivity|]. simpl. rewrite <- !app_assoc.
    split; [congruence|]. split; [reflexivity|].
    split; [repeat constructor|]. split; reflexivity.
  - rewrite (next_event_from_bus_cons 0%Q r rest) by exact Hs.
    match goal with |- context [drain_loop fuel _ ?v] => set (w1 := v) end.
    destruct (IH (event_of_recv r) w1) as (w' & consumed & tr & Hrun & Hc & Htr & Hop & Hout & Hsel);
      [simpl in *; lia|].
    exists w', (r :: consumed), (OEnqueue e :: OBusRecv 0%Q r :: tr).
    split; [exact Hrun|].
    split; [simpl in Hc; rewrite Hc; reflexivity|].
    split; [rewrite Htr; simpl; rewrite <- !app_assoc; reflexivity|].
    split; [repeat constructor; exact Hop|].
    split; [|exact Hsel].
    rewrite Hout, polled_events_cons. simpl. rewrite <- !app_assoc. reflexivity.
Qed.

Lemma first_poll_forward (t : Q) (w : world) :
  exists w1 consumed ev r0,
    _next_event_from_bus t w = (Ret ev, w1) /\
    recv_script w = consumed ++ recv_script w1 /\
    trace w1 = trace w ++ [OBusRecv t r0] /\
    option_list ev = polled_events consumed /\
    outbuf w1 = outbuf w /\
    select_script w1 = select_script w.
Proof.
  destruct (recv_script w) as [|r rest] eqn:Hs.
  - exists (log (OBusRecv t RecvNone) w), [], None, RecvNone.
    rewrite next_event_from_bus_nil by exact Hs. simpl.
    repeat split. congruence.
  - exists (log (OBusRecv t r) (set_recv_script rest w)), [r], (event_of_recv r), r.
    rewrite (next_event_from_bus_cons t r rest) by exact Hs.
    rewrite polled_events_cons. simpl. rewrite app_nil_r. repeat split.
Qed.

(** One pass of the outer loop, whatever the bus and the socket answer. *)
Lemma send_iteration_forward (w : world) :
  exists w' consumed,
    send_iteration w = (Ret tt, w') /\ forward_effect consumed w w'.
Proof.
  rewrite send_iteration_unfold.
  destruct (first_poll_forward (1#2)%Q w)
    as (w1 & c1 & ev & r0 & -> & Hc1 & Htr1 & Hev & Hout1 & Hsel1).
  destruct (select_writable_spec w1)
    as (w2 & -> & Htr2 & Hsel2 & Hs2 & Hout2 & _).
  destruct (drain_loop_forward (S (length (recv_script w2))) ev w2 ltac:(lia))
    as (w3 & cd & trd & -> & Hcd & Htr3 & Hop & Hout3 & Hsel3).
  set (b := hd false (select_script w1)) in *.
  destruct (flush_step w3 b) as (w4 & -> & Htr4 & Hout4 & Hs4 & _).
  destruct (poll_or_enqueue_facts trd Hop) as (Hd & Hsh & Hew & Hac).
  exists w4, (c1 ++ cd). split; [reflexivity|].
  exists (OBusRecv (1#2)%Q r0 :: OSelect b :: trd
            ++ (if has_data (outbuf w3) && b then [OSendall (outbuf w3)] else [])).
  split; [rewrite Hc1, Hs4, <- Hs2, Hcd, app_assoc; reflexivity|].
  split; [rewrite Htr4, Htr3, Htr2, Htr1, <- !app_assoc; reflexivity|].
  assert (Hbuf : outbuf w3 = outbuf w ++ polled_events (c1 ++ cd)).
  { rewrite Hout3, Hout2, Hout1, Hev, polled_events_app. reflexivity. }
  unfold adapter_calls in *.
  split; [|split; [|split]].
  - cbn [delivered flat_map app]. fold (delivered (trd ++
      (if has_data (outbuf w3) && b then [OSendall (outbuf w3)] else []))).
    rewrite delivered_app, Hd, Hout4, <- Hbuf.
    destruct (has_data (outbuf w3) && b); simpl; rewrite ?app_nil_r; reflexivity.
  - cbn [List.filter is_shutdown]. rewrite List.filter_app, Hsh.
    destruct (has_data (outbuf w3) && b); reflexivity.
  - cbn [List.filter is_empty_write]. rewrite List.filter_app, Hew.
    destruct (outbuf w3) as [|x buf]; [reflexivity|].
    destruct b; reflexivity.
  - cbn [List.filter is_adapter_op is_poll]. rewrite !List.filter_app, Hac.
    destruct (has_data (outbuf w3) && b); reflexivity.
Qed.

Lemma forward_effect_app (c1 c2 : list recv_result) (w w1 w2 : world) :
  forward_effect c1 w w1 -> forward_effect c2 w1 w2 ->
  forward_effect (c1 ++ c2) w w2.
Proof.
  intros (tr1 & Hc1 & Htr1 & Hd1 & Hsh1 & Hew1 & Hac1)
         (tr2 & Hc2 & Htr2 & Hd2 & Hsh2 & Hew2 & Hac2).
  exists (tr1 ++ tr2). unfold adapter_calls in *.
  split; [rewrite Hc1, Hc2, app_assoc; reflexivity|].
  split; [rewrite Htr2, Htr1, app_assoc; reflexivity|].
  split; [|split; [|split]].
  - rewrite delivered_app, <- app_assoc, Hd2, app_assoc, Hd1,
      polled_events_app, app_assoc. reflexivity.
  - rewrite List.filter_app, Hsh1, Hsh2. reflexivity.
  - rewrite List.filter_app, Hew1, Hew2. reflexivity.
  - rewrite !List.filter_app, Hac1, Hac2. reflexivity.
Qed.

Lemma forward_effect_nil (w : world) : forward_effect [] w w.
Proof. exists []. simpl. rewrite !app_nil_r. repeat split. Qed.

(** Any run of the loop that ends: a run of passes, then the shutdown. *)
Lemma send_to_client_forward (fuel : nat) :
  forall (w w' : world) (r : result unit),
  _send_to_client fuel w = Some (r, w') ->
  r = Ret tt /\
  stop_event w' = true /\
  exists w1 consumed,
    forward_effect consumed w w1 /\ w' = log OBusShutdown w1.
Proof.
  induction fuel as [|fuel IH]; intros w w' r Hrun; [discriminate|].
  simpl in Hrun. destruct (stop_event w) eqn:Hst.
  - injection Hrun as <- <-. split; [reflexivity|]. split; [exact Hst|].
    exists w, []. split; [apply forward_effect_nil | reflexivity].
  - destruct (send_iteration_forward w) as (w1 & c1 & Hit & Heff).
    rewrite Hit in Hrun.
    destruct (IH _ _ _ Hrun) as (Hr & Hst' & w2 & c2 & Heff2 & Hw').
    split; [exact Hr|]. split; [exact Hst'|].
    exists w2, (c1 ++ c2). split; [|exact Hw'].
    exact (forward_effect_app _ _ _ _ _ Heff Heff2).
Qed.

(** X11: a run of the bus-to-client loop that leaves the [while] and
    returns has the stop event set and has called [bus.shutdown()] exactly
    once, as its last call; every call it made to the adapter before that is
    a poll. *)
Theorem X11_send_loop_ends_with_one_shutdown (fuel : nat) (w w' : world) :
  _send_to_client fuel w = Some (Ret tt, w') ->
  stop_event w' = true /\
  exists tr,
    trace w' = trace w ++ tr ++ [OBusShutdown] /\
    List.filter is_shutdown tr = [] /\
    adapter_calls tr = List.filter is_poll tr.
Proof.
  intros Hrun.
  destruct (send_to_client_forward fuel w w' (Ret tt) Hrun)
    as (_ & Hst & w1 & consumed & (tr & _ & Htr & _ & Hsh & _ & Hac) & ->).
  split; [exact Hst|].
  exists tr. simpl. rewrite Htr, <- app_assoc. repeat split; assumption.
Qed.

Lemma X11_witness :
  let m1 := mkMessage 256 [Byte.x01] in
  let w := fresh_world [7%nat] 7%nat ∅ [] (fun _ => inl "mock0"%string) []
             [RecvMsg m1; RecvMsg m1; RecvNone; RecvError "bus off"] [true] in
  exists w',
    _send_to_client 4 w = Some (Ret tt, w') /\
    stop_event w' = true /\
    exists tr,
      trace w' = trace w ++ tr ++ [OBusShutdown] /\
      List.filter is_shutdown tr = [] /\
      adapter_calls tr = List.filter is_poll tr.
Proof.
  intros m1 w.
  destruct (_send_to_client 4 w) as [[[[]|e|] w']|] eqn:Hrun;
    try (vm_compute in Hrun; discriminate Hrun).
  exists w'. split; [reflexivity|].
  exact (X11_send_loop_ends_with_one_shutdown 4 w w' Hrun).
Defined.



(** X13: the bus-to-client loop does not end by itself.  While the stop
    event is unset and the bus reports no error, the loop keeps polling:
    no number of passes brings it to its end.  Only [finish] setting the
    stop event or a bus error gets the bus shut down. *)
Theorem X13_send_loop_runs_while_healthy (fuel : nat) :
  forall (w : world),
  stop_event w = false ->
  Forall (fun r => not_error r = true) (recv_script w) ->
  _send_to_client fuel w = None.
Proof.
  induction fuel as [|fuel IH]; intros w Hst Hok; [reflexivity|].
  assert (Hit : exists w1, send_iteration w = (Ret tt, w1) /\
                  stop_event w1 = false /\
                  Forall (fun r => not_error r = true) (recv_script w1)).
  { destruct (split_frames _ Hok) as [[ms Hms] | (ms & pre' & Hms)].
    - destruct (send_iteration_healthy w ms [])
        as (w1 & _ & _ & Hrun & _ & _ & _ & _ & _ & Hs1 & Hst1 & _);
        [rewrite app_nil_r; exact Hms | left; reflexivity |].
      exists w1. split; [exact Hrun|]. split; [congruence|].
      rewrite Hs1. constructor.
    - destruct (send_iteration_healthy w ms (RecvNone :: pre') Hms)
        as (w1 & _ & _ & Hrun & _ & _ & _ & _ & _ & Hs1 & Hst1 & _);
        [right; eexists; reflexivity|].
      exists w1. split; [exact Hrun|]. split; [congruence|].
      rewrite Hs1. simpl. rewrite Hms in Hok.
      apply Forall_app in Hok as [_ Hok]. inversion Hok; assumption. }
  destruct Hit as (w1 & Hrun & Hst1 & Hok1).
  rewrite (send_to_client_step fuel w w1 Hst Hrun). apply IH; assumption.
Qed.

Lemma X13_witness :
  let m1 := mkMessage 256 [Byte.x01] in
  let w := fresh_world [7%nat] 7%nat ∅ [] (fun _ => inl "mock0"%string) []
             [RecvMsg m1; RecvNone; RecvMsg m1] [true] in
  _send_to_client 50 w = None.
Proof.
  intros m1 w.
  apply (X13_send_loop_runs_while_healthy 50 w); [reflexivity|].
  repeat constructor.
Defined.

(** ** The registry over a whole run *)

Lemma registry_grows_refl (w : world) : registry_grows w w.
Proof. split; [trivial|]. intros h t Ht. exists t. repeat split; trivial. Qed.

Lemma registry_grows_trans (w w1 w2 : world) :
  registry_grows w w1 -> registry_grows w1 w2 -> registry_grows w w2.
Proof.
  intros [Hr1 Ht1] [Hr2 Ht2]. split; [intros x h Hx; apply Hr2, Hr1, Hx|].
  intros h t Ht. destruct (Ht1 h t Ht) as (t1 & Hl1 & Hp1 & Hd1 & Hs1).
  destruct (Ht2 h t1 Hl1) as (t2 & Hl2 & Hp2 & Hd2 & Hs2).
  exists t2. repeat split; [exact Hl2 | congruence | congruence | tauto].
Qed.

Lemma registry_grows_frame (w w' : world) :
  send_tasks w' = send_tasks w -> tasks w' = tasks w -> registry_grows w w'.
Proof.
  intros Hr Ht. unfold registry_grows. rewrite Hr, Ht. apply registry_grows_refl.
Qed.

Lemma registry_grows_alter (w w' : world) (f : task -> task) (h : nat) :
  send_tasks w' = send_tasks w ->
  tasks w' = alter f h (tasks w) ->
  (forall t, task_period (f t) = task_period t /\
             task_duration (f t) = task_duration t /\
             (task_stopped t = true -> task_stopped (f t) = true)) ->
  registry_grows w w'.
Proof.
  intros Hr Ht Hf. split; [rewrite Hr; trivial|].
  intros h' t Hl. rewrite Ht, list_lookup_alter. case_decide as Hh.
  - subst h'. rewrite Hl. exists (f t). split; [reflexivity | apply Hf].
  - exists t. repeat split; trivial.
Qed.

Lemma receive_dispatch_registry_grows (ev : event) (w w' : world)
    (r : result loop_ctl) :
  receive_dispatch ev w = (r, w') -> registry_grows w w'.
Proof.
  intros Hd. destruct ev; simpl in Hd;
    try (injection Hd as <- <-; apply registry_grows_refl).
  - destruct (send_msg_spec msg w) as (w1 & tr & Hs & _ & _ & _ & _ & Hreg & Ht & _).
    unfold mbind, M_bind in Hd. rewrite Hs in Hd. injection Hd as <- <-.
    exact (registry_grows_frame w w1 Hreg Ht).
  - msimpl_in Hd. destruct (send_tasks w !! arbitration_id msg) as [h|] eqn:Hreg;
      injection Hd as <- <-.
    + apply (registry_grows_alter _ _ (task_set_msg msg) h); [reflexivity | reflexivity|].
      intros t. repeat split; trivial.
    + split; simpl.
      * intros x h Hx. rewrite lookup_insert_ne; [exact Hx | congruence].
      * intros h t Hl. exists t. split; [apply lookup_app_l_Some, Hl|].
        repeat split; trivial.
  - msimpl_in Hd. destruct (send_tasks w !! arb_id) as [h|];
      injection Hd as <- <-; [|apply registry_grows_refl].
    apply (registry_grows_alter _ _ task_set_stopped h); [reflexivity | reflexivity|].
    intros t. repeat split; trivial.
Qed.

Lemma receive_iteration_registry_grows (w w' : world) (r : result (option unit)) :
  receive_iteration w = (r, w') -> registry_grows w w'.
Proof.
  intros Hit. unfold receive_iteration, _next_event in Hit. msimpl_in Hit.
  destruct (stop_event w); [injection Hit as <- <-; apply registry_grows_refl|].
  destruct (inbox w) as [|ev rest];
    [injection Hit as <- <-; apply registry_grows_refl|].
  destruct (receive_dispatch ev (set_inbox rest w)) as [rd wd] eqn:Hd.
  apply receive_dispatch_registry_grows in Hd.
  assert (Hg : registry_grows w wd)
    by (apply (registry_grows_trans w (set_inbox rest w) wd);
        [apply registry_grows_frame; reflexivity | exact Hd]).
  destruct rd as [[]|e|]; injection Hit as <- <-; exact Hg.
Qed.

Lemma relay_steps_registry_grows (w w' : world) :
  relay_steps w w' -> registry_grows w w'.
Proof.
  induction 1 as [w|w r w1 w2 Hit _ IH]; [apply registry_grows_refl|].
  exact (registry_grows_trans _ _ _ (receive_iteration_registry_grows _ _ _ Hit) IH).
Qed.

(** X15: over any run of the client-to-bus loop the task registry only
    grows.  No ID is ever unregistered or bound to another task; no task
    object goes away; a task keeps the period and duration it was created
    with, whatever later start events for its ID say; and a task that has
    been stopped stays stopped. *)
Theorem X15_registry_only_grows (w : world) :
  let w' := (_receive_from_client w).2 in
  (forall x h, send_tasks w !! x = Some h -> send_tasks w' !! x = Some h) /\
  (forall h t, tasks w !! h = Some t ->
     exists t', tasks w' !! h = Some t' /\
                task_period t' = task_period t /\
                task_duration t' = task_duration t /\
                (task_stopped t = true -> task_stopped t' = true)).
Proof.
  simpl. destruct (_receive_from_client w) as [r w'] eqn:Hrun.
  apply receive_loop_steps, relay_steps_registry_grows in Hrun. exact Hrun.
Qed.

Lemma X15_witness :
  let t := mkTask (mkMessage 256 [Byte.x01]) 1%Q None true in
  let w := set_inbox [PeriodicMessageStart (mkMessage 256 [Byte.x02]) (1#10)%Q (Some 3%Q);
                      PeriodicMessageStart (mkMessage 257 []) 2%Q None;
                      PeriodicMessageStop 256]
             (set_send_tasks (fun _ => {[ 256 := 0%nat ]})
                (set_tasks (fun _ => [t])
                   (fresh_world [7%nat] 7%nat ∅ [] (fun _ => inl "mock0"%string)
                      [] [] []))) in
  let w' := (_receive_from_client w).2 in
  send_tasks w' !! 256 = Some 0%nat /\
  exists t', tasks w' !! 0%nat = Some t' /\
             task_period t' = 1%Q /\
             task_duration t' = None /\
             (task_stopped t = true -> task_stopped t' = true).
Proof.
  intros t w w'.
  destruct (X15_registry_only_grows w) as [Hreg Htasks].
  split; [apply Hreg; reflexivity|].
  apply (Htasks 0%nat t). reflexivity.
Defined.
